(** * Manipulense backend: the segmenter and the analyzer of [utils.py]

    A shallow embedding of [preprocess_chat], [analyze_message] and
    [analyze_chat] together with the Python built-ins they rest on
    ([str.strip], [str.splitlines], [re.sub], the [in] test on strings, the
    module-level [random] generator, true division and [round]).

    Python strings are sequences of Unicode code points; a code point is a
    number in [N].  Dictionaries with string keys are [gmap string _].  The
    code draws its confidences from the generator of the [random] module:
    the functions that draw are written in a state monad over the state of
    that generator.  [str.lower] is the case mapping of the Python runtime
    and is a parameter of the analyzer.

    The development first gives the functions, then proves, in this order:
    properties of the string functions and of the backtracking matcher, the
    segmenter, rounding on doubles, the analyzer (labels, explanations,
    confidences, influence score) and the use of the generator across
    calls, and last evaluates the scenarios of the specification. *)

From stdpp Require Import base option list strings gmap.
From Stdlib Require Import ZArith NArith QArith Qround Qabs Qpower Lqa Lia.

Local Open Scope N_scope.

(** ** Python strings *)

Definition char : Type := N.
Definition pystr : Type := list char.

Definition of_string (s : string) : pystr :=
  map Ascii.N_of_ascii (String.list_ascii_of_string s).

Notation "'py' s" := (of_string s%string) (at level 10, only parsing).

Definition LF : char := 10.
Definition CR : char := 13.
Definition SP : char := 32.
Definition COLON : char := 58.
Definition HYPHEN : char := 45.

Definition between (lo hi c : char) : bool := (lo <=? c) && (c <=? hi).

(** [str.isspace] on one code point: the characters removed by [str.strip]
    and matched by [\s] in a [str] pattern. *)
Definition is_space (c : char) : bool :=
  between 9 13 c || between 28 31 c || (c =? 32) || (c =? 133) || (c =? 160)
  || (c =? 5760) || between 8192 8202 c || (c =? 8232) || (c =? 8233)
  || (c =? 8239) || (c =? 8287) || (c =? 12288).

(** The line boundaries of [str.splitlines]. *)
Definition is_linebreak (c : char) : bool :=
  between 10 13 c || between 28 30 c || (c =? 133) || (c =? 8232) || (c =? 8233).

(** The class [[A-Za-z0-9_]]. *)
Definition is_word (c : char) : bool :=
  between 65 90 c || between 97 122 c || between 48 57 c || (c =? 95).

(** [.] without the DOTALL flag: anything but a line feed. *)
Definition is_dot (c : char) : bool := negb (c =? LF).

Fixpoint lstrip (s : pystr) : pystr :=
  match s with
  | c :: s' => if is_space c then lstrip s' else s
  | [] => []
  end.

Definition rstrip (s : pystr) : pystr := rev (lstrip (rev s)).

Definition strip (s : pystr) : pystr := rstrip (lstrip s).

(** [s.splitlines()]: [cur] is the line being read, [None] between lines.  A
    carriage return directly followed by a line feed is one boundary; the
    text after the last boundary is a line only when it is not empty. *)
Fixpoint splitlines_from (cur : option pystr) (s : pystr) : list pystr :=
  match s with
  | [] => match cur with Some l => [l] | None => [] end
  | c :: s' =>
      if is_linebreak c then
        default [] cur ::
          (if c =? CR then
             match s' with
             | d :: s'' => if d =? LF then splitlines_from None s''
                           else splitlines_from None s'
             | [] => splitlines_from None s'
             end
           else splitlines_from None s')
      else splitlines_from (Some (default [] cur ++ [c])) s'
  end.

Definition splitlines (s : pystr) : list pystr := splitlines_from None s.

(** [re.sub(r"\s+", " ", s)]: every maximal run of white space becomes one
    space; [in_run] tells that the previous character was white space. *)
Fixpoint sub_spaces (in_run : bool) (s : pystr) : pystr :=
  match s with
  | [] => []
  | c :: s' =>
      if is_space c then
        if in_run then sub_spaces true s' else SP :: sub_spaces true s'
      else c :: sub_spaces false s'
  end.

Fixpoint startswith (s p : pystr) {struct p} : bool :=
  match p, s with
  | [], _ => true
  | a :: p', b :: s' => (a =? b) && startswith s' p'
  | _ :: _, [] => false
  end.

(** [sub in s] on strings. *)
Fixpoint contains (sub s : pystr) : bool :=
  startswith s sub ||
  match s with
  | [] => false
  | _ :: s' => contains sub s'
  end.

(** [s.replace(a, b)] for one-character [a] and [b]. *)
Definition replace (a b : char) (s : pystr) : pystr :=
  map (fun c => if c =? a then b else c) s.

(** [str.lower] on the ASCII letters, the case mapping used in the examples. *)
Definition ascii_lower (s : pystr) : pystr :=
  map (fun c => if between 65 90 c then c + 32 else c) s.

(** ** The pattern [^\s*([A-Za-z0-9_]+)\s*:\s*(.+)$]

    The matcher is the backtracking one of [re]: a starred class first takes
    the longest run and gives characters back one at a time while the rest of
    the pattern, the continuation [k], fails. *)

Fixpoint star {R : Type} (p : char -> bool) (s : pystr)
    (k : pystr -> pystr -> option R) : option R :=
  match s with
  | c :: s' =>
      if p c then
        match star p s' (fun run rest => k (c :: run) rest) with
        | Some r => Some r
        | None => k [] s
        end
      else k [] s
  | [] => k [] s
  end.

Definition plus {R : Type} (p : char -> bool) (s : pystr)
    (k : pystr -> pystr -> option R) : option R :=
  match s with
  | c :: s' => if p c then star p s' (fun run rest => k (c :: run) rest) else None
  | [] => None
  end.

Definition lit {R : Type} (a : char) (s : pystr) (k : pystr -> option R) : option R :=
  match s with
  | c :: s' => if c =? a then k s' else None
  | [] => None
  end.

(** [$]: the end of the string, or just before a line feed that ends it. *)
Definition at_end (s : pystr) : bool :=
  match s with
  | [] => true
  | [c] => c =? LF
  | _ => false
  end.

(** [speaker_pattern.match(line)], as the pair of its two groups. *)
Definition speaker_pattern (line : pystr) : option (pystr * pystr) :=
  star is_space line (fun _ r1 =>
  plus is_word r1 (fun g1 r2 =>
  star is_space r2 (fun _ r3 =>
  lit COLON r3 (fun r4 =>
  star is_space r4 (fun _ r5 =>
  plus is_dot r5 (fun g2 r6 =>
  if at_end r6 then Some (g1, g2) else None)))))).

(** ** Floating point

    A finite double is the rational it denotes.  [binary64 x] is the double
    nearest to the rational [x], ties to even.  The exponent range is left
    out: the numbers computed here, confidences and ratios of list lengths,
    stay far from the overflow and underflow thresholds. *)

Local Open Scope Q_scope.

(** Round to the nearest integer, ties to even. *)
Definition rne (x : Q) : Z :=
  let f := Qfloor x in
  match Qcompare (x - inject_Z f) (1 # 2) with
  | Lt => f
  | Gt => (f + 1)%Z
  | Eq => if Z.even f then f else (f + 1)%Z
  end.

(** The exponent [e] with [2^e <= x < 2^(e+1)], for [x > 0]. *)
Definition binade (x : Q) : Z :=
  let l := (Z.log2 (Qnum x) - Z.log2 (Zpos (Qden x)))%Z in
  if Qle_bool (2 ^ l) x then l else (l - 1)%Z.

Definition binary64 (x : Q) : Q :=
  if Qeq_bool x 0 then 0
  else
    let a := Qabs x in
    let s := (52 - binade a)%Z in
    let m := rne (a * 2 ^ s) in
    (if Qle_bool 0 x then 1 else - (1)) * (inject_Z m / 2 ^ s).

(** [round(x, 2)]: the nearest number with two decimals, ties to even on the
    exact value of [x].  Python returns the double nearest to that decimal;
    the model keeps the decimal itself, as a fraction over 100. *)
Definition round2 (x : Q) : Q := rne (100 * x) # 100.

(** [c / t] on integers: the correctly rounded quotient. *)
Definition true_div (c t : nat) : Q :=
  binary64 (inject_Z (Z.of_nat c) / inject_Z (Z.of_nat t)).

(** ** The module-level generator of [random]

    One generator is created when [random] is imported and serves every call
    of the process.  Its state is the sequence of 53-bit numbers it is yet to
    produce: [stream] and the number [pos] of those already drawn. *)

Record rng : Type := Rng { stream : nat -> N; pos : nat }.

Definition Rand (A : Type) : Type := rng -> A * rng.

Definition ret {A : Type} (a : A) : Rand A := fun g => (a, g).

Definition bind {A B : Type} (m : Rand A) (f : A -> Rand B) : Rand B :=
  fun g => let '(a, g') := m g in f a g'.

Notation "'let*' x ':=' m 'in' k" := (bind m (fun x => k))
  (at level 10, x pattern, m at level 100, k at level 200, only parsing).

(** [random.random()]: a multiple of [2^-53] in [[0, 1)]. *)
Definition random : Rand Q :=
  fun g =>
    (Z.of_N (stream g (pos g) mod 2 ^ 53) # 2 ^ 53,
     {| stream := stream g; pos := S (pos g) |}).

(** [random.uniform(a, b)] is [a + (b - a) * random()] on doubles. *)
Definition uniform (a b : Q) : Rand Q :=
  let* u := random in
  ret (binary64 (a + binary64 (binary64 (b - a) * u))).

Local Close Scope Q_scope.

(** ** [utils.py] *)

Definition MANIPULATION_RULES : list (pystr * list pystr) :=
  [ (py "guilt-tripping",
      [py "after all"; py "because i"; py "you owed me"; py "you owe me";
       py "you should have"]);
    (py "flattery",
      [py "you're the only one"; py "you're the best";
       py "no one else like you"; py "only you can"]);
    (py "fear-pressure",
      [py "if you don't"; py "or else"; py "you will regret";
       py "you'll regret"]) ].

Definition ACCEPTANCE_KEYWORDS : list pystr :=
  [py "okay"; py "ok"; py "fine"; py "i'll"; py "i will"; py "sure";
   py "alright"; py "accepted"; py "yes"].

Definition NEUTRAL : pystr := py "neutral".
Definition PRESSURED : pystr := py "pressured acceptance".
Definition UNKNOWN : pystr := py "Unknown".

(** A message is a dictionary; the code reads its keys [speaker] and [text]. *)
Abbreviation message := (gmap string pystr).

Record analysis : Type := Analysis {
  speaker : pystr;
  text : pystr;
  label : pystr;
  confidence : Q;
  explanation : pystr
}.

Record result : Type := Result {
  messages : list analysis;
  influence_score : Q
}.

(** The literals [0.7], [0.95], [0.75] and [0.97]. *)
Definition f0_7 : Q := binary64 (7 # 10)%Q.
Definition f0_95 : Q := binary64 (95 # 100)%Q.
Definition f0_75 : Q := binary64 (75 # 100)%Q.
Definition f0_97 : Q := binary64 (97 # 100)%Q.

(** The dictionary [{"speaker": speaker, "text": text}]. *)
Definition Message (speaker text : pystr) : message :=
  {[ "speaker"%string := speaker; "text"%string := text ]}.

(** The body of the loop of [preprocess_chat] for a line that is not blank. *)
Definition line_message (line : pystr) : message :=
  match speaker_pattern line with
  | Some (g1, g2) => Message g1 g2
  | None => Message UNKNOWN line
  end.

Fixpoint preprocess_lines (lines : list pystr) (messages : list message)
    : list message :=
  match lines with
  | [] => messages
  | raw :: lines' =>
      let line := strip raw in
      match line with
      | [] => preprocess_lines lines' messages
      | _ :: _ => preprocess_lines lines' (messages ++ [line_message line])
      end
  end.

Definition preprocess_chat (chat_text : pystr) : list message :=
  preprocess_lines (splitlines chat_text) [].

Section Analyzer.

(** [str.lower], the case mapping of the Python runtime. *)
Variable lower : pystr -> pystr.

Definition _norm (text : pystr) : pystr :=
  sub_spaces false (lower (strip text)).

(** The inner loop of [analyze_message]: the first trigger of the list that
    occurs in [n]. *)
Fixpoint first_trigger (n : pystr) (triggers : list pystr) : option pystr :=
  match triggers with
  | [] => None
  | trig :: triggers' =>
      if contains trig n then Some trig else first_trigger n triggers'
  end.

(** The outer loop, over the items of the dictionary in insertion order. *)
Fixpoint first_rule (n : pystr) (rules : list (pystr * list pystr))
    : option (pystr * pystr) :=
  match rules with
  | [] => None
  | (label, triggers) :: rules' =>
      match first_trigger n triggers with
      | Some trig => Some (label, trig)
      | None => first_rule n rules'
      end
  end.

Definition rule_explanation (trig label : pystr) : pystr :=
  py "Phrase '" ++ trig ++ py "' detected; suggests "
    ++ replace HYPHEN SP label ++ py ".".

Definition analyze_message (text : pystr) : Rand (pystr * Q * pystr) :=
  let n := _norm text in
  match first_rule n MANIPULATION_RULES with
  | Some (label, trig) =>
      let* u := uniform f0_7 f0_95 in
      ret (label, round2 u, rule_explanation trig label)
  | None =>
      let* u := uniform f0_7 f0_95 in
      ret (NEUTRAL, round2 u, py "No manipulation keyword detected.")
  end.

(** [any(k in n_text for k in ACCEPTANCE_KEYWORDS)] *)
Definition contains_acceptance (n_text : pystr) : bool :=
  existsb (fun k => contains k n_text) ACCEPTANCE_KEYWORDS.

Definition neq (a b : pystr) : bool := negb (bool_decide (a = b)).

Definition pressured_explanation (prev_speaker : pystr) : pystr :=
  py "Message contains acceptance keywords and was preceded by a manipulative message "
    ++ py "from " ++ prev_speaker ++ py ". This suggests pressured acceptance.".

(** The test of the [if] that overrides the label; a dictionary that was
    built with five keys is true, [None] is false. *)
Definition pressured (contains_acceptance : bool) (prev_analysis : option analysis)
    (cur_speaker : pystr) : bool :=
  contains_acceptance &&
  match prev_analysis with
  | None => false
  | Some prev => neq (label prev) NEUTRAL && neq (speaker prev) cur_speaker
  end.

(** The body of the loop of [analyze_chat].  The override is taken only with
    a previous analysis, whose speaker its explanation names. *)
Definition analyze_step (msg : message) (prev_analysis : option analysis)
    : Rand analysis :=
  let cur_speaker := default UNKNOWN (msg !! "speaker"%string) in
  let cur_text := default [] (msg !! "text"%string) in
  let* (label0, confidence0, explanation0) := analyze_message cur_text in
  let n_text := _norm cur_text in
  let contains_acceptance := contains_acceptance n_text in
  match prev_analysis with
  | Some prev =>
      if pressured contains_acceptance prev_analysis cur_speaker then
        let* u := uniform f0_75 f0_97 in
        ret (Analysis cur_speaker cur_text PRESSURED (round2 u)
               (pressured_explanation (speaker prev)))
      else ret (Analysis cur_speaker cur_text label0 confidence0 explanation0)
  | None => ret (Analysis cur_speaker cur_text label0 confidence0 explanation0)
  end.

Fixpoint analyze_loop (msgs : list message) (analyzed : list analysis)
    (manipulative_count : nat) (prev_analysis : option analysis)
    : Rand (list analysis * nat) :=
  match msgs with
  | [] => ret (analyzed, manipulative_count)
  | msg :: msgs' =>
      let* a := analyze_step msg prev_analysis in
      let manipulative_count :=
        if neq (label a) NEUTRAL then S manipulative_count else manipulative_count in
      analyze_loop msgs' (analyzed ++ [a]) manipulative_count (Some a)
  end.

Definition analyze_chat (msgs : list message) : Rand result :=
  let* (analyzed, manipulative_count) := analyze_loop msgs [] 0%nat None in
  let total := Nat.max (length msgs) 1 in
  let influence_score := round2 (true_div manipulative_count total) in
  ret (Result analyzed influence_score).

End Analyzer.

(** ** [models.py] and [main.py] *)

Module models.

Record ChatInput : Type := { chat : pystr }.

Record MessageAnalysis : Type := {
  speaker : pystr;
  text : pystr;
  label : pystr;
  confidence : Q;
  explanation : option pystr
}.

Record ChatOutput : Type := {
  messages : list MessageAnalysis;
  influence_score : Q
}.

End models.

Record HTTPException : Type := { status_code : nat; detail : pystr }.

(** [not s] on a string. *)
Definition falsy (s : pystr) : bool :=
  match s with
  | [] => true
  | _ :: _ => false
  end.

(** [MessageAnalysis(speaker=m["speaker"], ..., explanation=m.get("explanation"))] *)
Definition to_model (m : analysis) : models.MessageAnalysis :=
  {| models.speaker := speaker m;
     models.text := text m;
     models.label := label m;
     models.confidence := confidence m;
     models.explanation := Some (explanation m) |}.

(** The loop of [analyze] that fills [messages_out]. *)
Fixpoint convert (ms : list analysis) (messages_out : list models.MessageAnalysis)
    : list models.MessageAnalysis :=
  match ms with
  | [] => messages_out
  | m :: ms' => convert ms' (messages_out ++ [to_model m])
  end.

Section Endpoint.

Variable lower : pystr -> pystr.

(** The handler of [POST /analyze]; a raised [HTTPException] is the left
    summand. *)
Definition analyze (chat_input : models.ChatInput)
    : Rand (HTTPException + models.ChatOutput) :=
  let chat_text := models.chat chat_input in
  if falsy chat_text || falsy (strip chat_text) then
    ret (inl {| status_code := 400; detail := py "Empty chat text provided." |})
  else
    let msgs := preprocess_chat chat_text in
    let* result := analyze_chat lower msgs in
    ret (inr {| models.messages := convert (messages result) [];
                models.influence_score := influence_score result |}).

End Endpoint.

(** ** Notions used in the statements *)

Abbreviation all p := (Forall (fun c : char => p c = true)).
Abbreviation none p := (Forall (fun c : char => p c = false)).

(** A trimmed line has the shape [name: text]: a token of word characters,
    white space, a colon, white space, and a remainder that does not start
    with white space. *)
Definition speaker_line (line tok rest : pystr) : Prop :=
  exists ws1 ws2,
    line = tok ++ ws1 ++ COLON :: ws2 ++ rest /\
    tok <> [] /\ all is_word tok /\ all is_space ws1 /\ all is_space ws2 /\
    match rest with c :: _ => is_space c = false | [] => False end.

(** [sub] occurs in [s] as a substring. *)
Definition occurs (sub s : pystr) : Prop := exists pre post, s = pre ++ sub ++ post.

(** Half a unit in the last place of a double, relative to its value. *)
Definition eps : Q := (1 # 9007199254740992)%Q.

(** The analyses that the loop of [analyze_chat] appends, one after the
    other, starting with [prev] as the previous analysis. *)
Fixpoint analyses (lower : pystr -> pystr) (msgs : list message)
    (prev : option analysis) (g : rng) : list analysis * rng :=
  match msgs with
  | [] => ([], g)
  | msg :: msgs' =>
      let (a, g1) := analyze_step lower msg prev g in
      let (l, g2) := analyses lower msgs' (Some a) g1 in
      (a :: l, g2)
  end.

(** The label and the explanation of [analyze_message], which do not depend
    on the generator. *)
Definition rule_label (lower : pystr -> pystr) (text : pystr) : pystr :=
  match first_rule (_norm lower text) MANIPULATION_RULES with
  | Some (label, _) => label
  | None => NEUTRAL
  end.

Definition rule_text (lower : pystr -> pystr) (text : pystr) : pystr :=
  match first_rule (_norm lower text) MANIPULATION_RULES with
  | Some (label, trig) => rule_explanation trig label
  | None => py "No manipulation keyword detected."
  end.

(** Two analyses that agree on all but the confidence. *)
Definition same_verdict (a b : analysis) : Prop :=
  speaker a = speaker b /\ text a = text b /\ label a = label b /\
  explanation a = explanation b.

(** The previous analysis at position [i] of a run: none for the first
    message, the analysis just before otherwise. *)
Definition previous (l : list analysis) (i : nat) : option analysis :=
  match i with
  | O => None
  | S j => l !! j
  end.

(** Two generator states that are about to produce the same numbers. *)
Definition same_draws (g g2 : rng) : Prop :=
  forall i : nat, stream g (pos g + i) = stream g2 (pos g2 + i).

(** The part of an analysis that the override reads from the previous one. *)
Definition verdict (p : analysis) : pystr * pystr := (label p, speaker p).

(** ** Sample inputs *)

Definition sample_rng : rng :=
  {| stream := fun i => N.of_nat i * 1234567890123457 + 99; pos := 0 |}.

(** The same numbers to come, after three draws made by earlier calls. *)
Definition sample_rng_later : rng :=
  {| stream := fun i => N.of_nat (i - 3) * 1234567890123457 + 99; pos := 3 |}.

Definition chat_owe : pystr := py "A: you owe me" ++ [LF] ++ py "B: okay fine".

Definition chat_hello : pystr := py "hello there" ++ [LF] ++ py "how are you".

Definition chat_chain : pystr :=
  py "A: you owe me" ++ [LF] ++ py "B: okay" ++ [LF] ++ py "A: fine".

Definition chat_threat : pystr :=
  py "C: or else" ++ [LF] ++ py "B: sure" ++ [LF] ++ py "A: fine".

Definition no_analysis : analysis := Analysis [] [] [] 0 [].

(** A run on a chat with the sample generator, and its analysis at
    position [i]. *)
Definition sample_run (chat : pystr) : result :=
  fst (analyze_chat ascii_lower (preprocess_chat chat) sample_rng).

Definition sample (chat : pystr) (i : nat) : analysis :=
  default no_analysis (messages (sample_run chat) !! i).

(** ** Notions used in the further properties *)

(** A string that neither starts nor ends with white space and is not empty. *)
Definition trimmed (s : pystr) : Prop :=
  s <> [] /\
  (forall c r, s = c :: r -> is_space c = false) /\
  (forall r c, s = r ++ [c] -> is_space c = false).

(** A speaker and a text as [preprocess_chat] returns them. *)
Definition well_formed (spk txt : pystr) : Prop :=
  spk <> [] /\ all is_word spk /\ trimmed txt /\ none is_linebreak txt.

(** A chat written out in the format of the docstring of [preprocess_chat],
    one line [speaker: text] per message. *)
Fixpoint transcript (msgs : list (pystr * pystr)) : pystr :=
  match msgs with
  | [] => []
  | (spk, txt) :: msgs' => spk ++ py ": " ++ txt ++ LF :: transcript msgs'
  end.

(** The five labels. *)
Definition LABELS : list pystr :=
  [NEUTRAL; py "guilt-tripping"; py "flattery"; py "fear-pressure"; PRESSURED].

(** No trigger of any rule occurs in the normalized text. *)
Definition trigger_free (lower : pystr -> pystr) (txt : pystr) : Prop :=
  forall c ts t, (c, ts) ∈ MANIPULATION_RULES -> t ∈ ts -> ~ occurs t (_norm lower txt).

(** [msg.get("speaker", "Unknown")] and [msg.get("text", "")]. *)
Definition get_speaker (msg : message) : pystr := default UNKNOWN (msg !! "speaker"%string).
Definition get_text (msg : message) : pystr := default [] (msg !! "text"%string).

(** The tests of [trimmed] and [well_formed] as functions. *)
Definition is_trimmed (s : pystr) : bool :=
  match s with
  | [] => false
  | c :: _ => negb (is_space c) && negb (is_space (List.last s c))
  end.

Definition is_well_formed (spk txt : pystr) : bool :=
  negb (falsy spk) && forallb is_word spk && is_trimmed txt
  && forallb (fun c => negb (is_linebreak c)) txt.

(** The response to a chat with the sample generator, when it is accepted. *)
Definition sample_response (chat_text : pystr) : models.ChatOutput :=
  match fst (analyze ascii_lower {| models.chat := chat_text |} sample_rng) with
  | inr out => out
  | inl _ => {| models.messages := []; models.influence_score := 0 |}
  end.

Definition chat_agree : pystr := py "A: okay sure" ++ [LF] ++ py "B: yes, fine".

(** * Properties *)

(** ** Strings *)

Lemma startswith_spec (s p : pystr) :
  startswith s p = true <-> exists post, s = p ++ post.
Proof.
  revert s. induction p as [|a p IH]; intros s; simpl.
  - split; eauto.
  - destruct s as [|b s]; simpl.
    + split; [discriminate | intros [post H]; discriminate].
    + rewrite andb_true_iff, N.eqb_eq, IH. split.
      * intros [-> [post ->]]. eauto.
      * intros [post H]. injection H as -> ->. eauto.
Qed.

(** [contains] is the substring test. *)
Lemma contains_spec (sub s : pystr) :
  contains sub s = true <-> exists pre post, s = pre ++ sub ++ post.
Proof.
  induction s as [|c s IH].
  - simpl. rewrite orb_false_r, startswith_spec. split.
    + intros [post H]. exists [], post. done.
    + intros (pre & post & H). destruct pre; [eauto|discriminate].
  - cbn [contains]. rewrite orb_true_iff, startswith_spec, IH. split.
    + intros [[post H]|(pre & post & H)].
      * exists [], post. done.
      * exists (c :: pre), post. by rewrite H.
    + intros (pre & post & H). destruct pre as [|d pre].
      * left. eauto.
      * right. injection H as -> ->. eauto.
Qed.

Lemma lstrip_split (s : pystr) :
  exists ws, s = ws ++ lstrip s /\ all is_space ws.
Proof.
  induction s as [|c s (ws & IH1 & IH2)]; simpl.
  - exists []. auto.
  - destruct (is_space c) eqn:E.
    + exists (c :: ws). split; [simpl; by f_equal | by constructor].
    + exists []. auto.
Qed.

Lemma lstrip_head (s : pystr) (c : char) (r : pystr) :
  lstrip s = c :: r -> is_space c = false.
Proof.
  induction s as [|d s IH]; simpl; [discriminate|].
  destruct (is_space d) eqn:E; [done|]. by intros [= -> ->].
Qed.

Lemma rstrip_split (s : pystr) :
  exists ws, s = rstrip s ++ ws /\ all is_space ws.
Proof.
  destruct (lstrip_split (rev s)) as (ws & H1 & H2).
  exists (rev ws). split.
  - unfold rstrip. rewrite <- rev_app_distr, <- H1. by rewrite rev_involutive.
  - by apply Forall_rev.
Qed.

Lemma rstrip_last (s r : pystr) (c : char) :
  rstrip s = r ++ [c] -> is_space c = false.
Proof.
  unfold rstrip. intros H. apply (f_equal (@rev _)) in H.
  rewrite rev_involutive, rev_app_distr in H. simpl in H.
  by apply lstrip_head in H.
Qed.

Lemma strip_head (s r : pystr) (c : char) :
  strip s = c :: r -> is_space c = false.
Proof.
  unfold strip. intros H.
  destruct (rstrip_split (lstrip s)) as (ws & H1 & _).
  rewrite H in H1. simpl in H1. by apply lstrip_head in H1.
Qed.

Lemma strip_last (s r : pystr) (c : char) :
  strip s = r ++ [c] -> is_space c = false.
Proof. apply rstrip_last. Qed.

Lemma strip_infix (s : pystr) :
  exists ws ws', s = ws ++ strip s ++ ws' /\ all is_space ws /\ all is_space ws'.
Proof.
  destruct (lstrip_split s) as (ws & H1 & H2).
  destruct (rstrip_split (lstrip s)) as (ws' & H3 & H4).
  exists ws, ws'. unfold strip. by rewrite <- H3.
Qed.

Lemma strip_none (p : char -> bool) (s : pystr) : none p s -> none p (strip s).
Proof.
  destruct (strip_infix s) as (ws & ws' & H & _). rewrite H at 1.
  rewrite !Forall_app. tauto.
Qed.

Lemma is_dot_not_break (c : char) : is_linebreak c = false -> is_dot c = true.
Proof.
  unfold is_dot, LF. destruct (N.eqb_spec c 10) as [->|]; [discriminate | done].
Qed.

(** No line of [splitlines] holds a line boundary. *)
Lemma splitlines_from_none (s : pystr) (cur : option pystr) :
  none is_linebreak (default [] cur) ->
  Forall (none is_linebreak) (splitlines_from cur s).
Proof.
  revert cur. induction s as [s IH] using (induction_ltof1 _ (@length char)).
  unfold ltof in IH. intros cur Hcur. destruct s as [|c s]; simpl.
  - destruct cur; constructor; auto.
  - destruct (is_linebreak c) eqn:E.
    + constructor; [done|].
      destruct (c =? CR); [|apply IH; simpl; auto].
      destruct s as [|d s]; [apply IH; simpl; auto|].
      destruct (d =? LF); apply IH; simpl; auto.
    + apply IH; simpl; [lia|]. apply Forall_app. auto.
Qed.

Lemma splitlines_none (s : pystr) : Forall (none is_linebreak) (splitlines s).
Proof. apply splitlines_from_none. constructor. Qed.

(** ** The backtracking matcher *)

Lemma star_greedy {R : Type} (p : char -> bool) (run rest : pystr)
    (k : pystr -> pystr -> option R) (r : R) :
  all p run ->
  match rest with c :: _ => p c = false | [] => True end ->
  k run rest = Some r ->
  star p (run ++ rest) k = Some r.
Proof.
  intros Hrun Hrest. revert k. induction Hrun as [|a run Ha _ IH]; intros k Hk.
  - destruct rest as [|c rest]; simpl; [done|]. by rewrite Hrest.
  - simpl. rewrite Ha. by rewrite (IH (fun run rest => k (a :: run) rest) Hk).
Qed.

Lemma star_inv {R : Type} (p : char -> bool) (s : pystr)
    (k : pystr -> pystr -> option R) (r : R) :
  star p s k = Some r ->
  exists run rest, s = run ++ rest /\ all p run /\ k run rest = Some r.
Proof.
  revert k. induction s as [|c s IH]; intros k; simpl.
  - intros H. exists [], []. auto.
  - destruct (p c) eqn:E; [|intros H; exists [], (c :: s); auto].
    destruct (star p s _) as [r'|] eqn:E'.
    + intros [= ->]. apply IH in E' as (run & rest & -> & H1 & H2).
      exists (c :: run), rest. auto.
    + intros H. exists [], (c :: s). auto.
Qed.

Lemma plus_greedy {R : Type} (p : char -> bool) (run rest : pystr)
    (k : pystr -> pystr -> option R) (r : R) :
  run <> [] -> all p run ->
  match rest with c :: _ => p c = false | [] => True end ->
  k run rest = Some r ->
  plus p (run ++ rest) k = Some r.
Proof.
  intros Hne Hrun Hrest Hk. destruct Hrun as [|a run Ha Hrun]; [done|].
  simpl. rewrite Ha. by apply (star_greedy p run rest (fun run rest => k (a :: run) rest)).
Qed.

Lemma plus_inv {R : Type} (p : char -> bool) (s : pystr)
    (k : pystr -> pystr -> option R) (r : R) :
  plus p s k = Some r ->
  exists run rest, s = run ++ rest /\ run <> [] /\ all p run /\ k run rest = Some r.
Proof.
  destruct s as [|c s]; simpl; [discriminate|].
  destruct (p c) eqn:E; [|discriminate].
  intros H. apply star_inv in H as (run & rest & -> & H1 & H2).
  exists (c :: run), rest. auto.
Qed.

Lemma is_word_not_space (c : char) : is_word c = true -> is_space c = false.
Proof.
  unfold is_word, is_space, between. intros H. apply not_true_is_false. revert H.
  rewrite !orb_true_iff, !andb_true_iff, !N.leb_le, !N.eqb_eq. lia.
Qed.

Lemma is_space_not_word (c : char) : is_space c = true -> is_word c = false.
Proof.
  intros H. apply not_true_is_false. intros H'.
  apply is_word_not_space in H'. congruence.
Qed.

(** A line of the shape [name: text] matches, with the token and the
    remainder as its groups. *)
Lemma speaker_pattern_complete (line tok rest : pystr) :
  speaker_line line tok rest -> all is_dot rest ->
  speaker_pattern line = Some (tok, rest).
Proof.
  intros (ws1 & ws2 & -> & Hne & Htok & Hws1 & Hws2 & Hrest) Hdot.
  unfold speaker_pattern.
  apply (star_greedy is_space [] (tok ++ ws1 ++ COLON :: ws2 ++ rest)).
  { constructor. }
  { destruct Htok as [|t tok Ht _]; [done|]. by apply is_word_not_space. }
  apply (plus_greedy is_word tok (ws1 ++ COLON :: ws2 ++ rest)); [done | done | |].
  { destruct Hws1 as [|w ws1 Hw _]; [done|]. by apply is_space_not_word. }
  apply (star_greedy is_space ws1 (COLON :: ws2 ++ rest)); [done | done |].
  simpl.
  apply (star_greedy is_space ws2 rest); [done | by destruct rest |].
  rewrite <- (app_nil_r rest) at 1.
  apply (plus_greedy is_dot rest []); [by destruct rest | done | done | done].
Qed.

Lemma speaker_pattern_inv (line g1 g2 : pystr) :
  speaker_pattern line = Some (g1, g2) ->
  exists ws0 ws1 ws2 tail,
    line = ws0 ++ g1 ++ ws1 ++ COLON :: ws2 ++ g2 ++ tail /\
    all is_space ws0 /\ g1 <> [] /\ all is_word g1 /\ all is_space ws1 /\
    all is_space ws2 /\ g2 <> [] /\ at_end tail = true.
Proof.
  unfold speaker_pattern. intros H.
  apply star_inv in H as (ws0 & r1 & -> & H0 & H).
  apply plus_inv in H as (t & r2 & -> & Hne & Ht & H).
  apply star_inv in H as (ws1 & r3 & -> & H1 & H).
  destruct r3 as [|c r4]; [discriminate|]. simpl in H.
  destruct (N.eqb_spec c COLON) as [->|]; [|discriminate].
  apply star_inv in H as (ws2 & r5 & -> & H2 & H).
  apply plus_inv in H as (t2 & r6 & -> & Hne2 & _ & H).
  destruct (at_end r6) eqn:E; [|discriminate]. injection H as <- <-.
  exists ws0, ws1, ws2, r6. auto 10.
Qed.

(** On a trimmed line the groups of a match are the token and the remainder
    after all the white space that follows the colon. *)
Lemma speaker_pattern_trimmed (line g1 g2 : pystr) :
  (forall c r, line = c :: r -> is_space c = false) ->
  (forall r c, line = r ++ [c] -> is_space c = false) ->
  none is_linebreak line ->
  speaker_pattern line = Some (g1, g2) ->
  speaker_line line g1 g2.
Proof.
  intros Hhead Hlast Hbr H.
  destruct (speaker_pattern_inv _ _ _ H)
    as (ws0 & ws1 & ws2 & tail & E & H0 & Hne & Hg1 & H1 & H2 & Hne2 & Hend).
  assert (ws0 = []) as ->.
  { destruct H0 as [|w ws0 Hw _]; [done|].
    rewrite (Hhead _ _ E) in Hw. discriminate. }
  assert (tail = []) as ->.
  { destruct tail as [|c [|? ?]]; [done| |discriminate]. simpl in Hend.
    apply N.eqb_eq in Hend as ->.
    specialize (Hlast (g1 ++ ws1 ++ COLON :: ws2 ++ g2) LF).
    rewrite E in Hlast. simpl in Hlast.
    rewrite <- !app_assoc in Hlast. simpl in Hlast. rewrite <- app_assoc in Hlast.
    by specialize (Hlast eq_refl). }
  simpl in E. rewrite app_nil_r in E.
  destruct (lstrip_split g2) as (ws & Eg2 & Hws).
  assert (Hrest : match lstrip g2 with c :: _ => is_space c = false | [] => False end).
  { destruct (lstrip g2) as [|c r] eqn:El; [|by apply (lstrip_head g2 c r)].
    rewrite app_nil_r in Eg2. subst ws.
    destruct g2 as [|c g2 _] using rev_ind; [done|].
    apply Forall_app in Hws as [_ Hc]. inversion_clear Hc as [|? ? Hc' _].
    rewrite (Hlast (g1 ++ ws1 ++ COLON :: ws2 ++ g2) c) in Hc'; [discriminate|].
    rewrite E, <- !app_assoc. simpl. by rewrite <- app_assoc. }
  assert (Hline : speaker_line line g1 (lstrip g2)).
  { exists ws1, (ws2 ++ ws). rewrite <- app_assoc, <- Eg2.
    repeat split; try done. by apply Forall_app. }
  assert (Hdot : all is_dot (lstrip g2)).
  { rewrite E, Eg2 in Hbr. rewrite !Forall_app, Forall_cons, !Forall_app in Hbr.
    destruct Hbr as (_ & _ & _ & _ & _ & Hbr).
    eapply Forall_impl; [exact Hbr|]. intros c. apply is_dot_not_break. }
  rewrite (speaker_pattern_complete _ _ _ Hline Hdot) in H.
  injection H as <-. exact Hline.
Qed.

(** ** The segmenter *)

Lemma preprocess_lines_eq (lines : list pystr) (acc : list message) :
  preprocess_lines lines acc =
  acc ++ (line_message <$> filter (fun l => l <> []) (strip <$> lines)).
Proof.
  revert acc. induction lines as [|raw lines IH]; intros acc; simpl.
  - by rewrite app_nil_r.
  - destruct (strip raw) as [|c line] eqn:E.
    + rewrite IH. by rewrite filter_cons_False by auto.
    + rewrite IH, filter_cons_True by done. by rewrite <- app_assoc.
Qed.

Lemma preprocess_chat_eq (chat_text : pystr) :
  preprocess_chat chat_text =
  line_message <$> filter (fun l => l <> []) (strip <$> splitlines chat_text).
Proof. unfold preprocess_chat. by rewrite preprocess_lines_eq. Qed.

(** What [line_message] makes of a trimmed line without line boundaries. *)
Lemma line_message_trimmed (raw : pystr) :
  none is_linebreak raw ->
  (forall tok rest, speaker_line (strip raw) tok rest ->
     line_message (strip raw) = Message tok rest) /\
  ((forall tok rest, ~ speaker_line (strip raw) tok rest) ->
     line_message (strip raw)
       = Message UNKNOWN (strip raw)).
Proof.
  intros Hbr. apply (strip_none is_linebreak) in Hbr.
  unfold line_message. split.
  - intros tok rest H.
    rewrite (speaker_pattern_complete _ _ _ H); [done|].
    destruct H as (ws1 & ws2 & E & _). rewrite E in Hbr.
    rewrite !Forall_app, Forall_cons, !Forall_app in Hbr.
    destruct Hbr as (_ & _ & _ & _ & Hbr).
    eapply Forall_impl; [exact Hbr|]. intros c. apply is_dot_not_break.
  - intros H. destruct (speaker_pattern (strip raw)) as [[g1 g2]|] eqn:E; [|done].
    destruct (H g1 g2). apply speaker_pattern_trimmed; auto.
    + intros c r. apply strip_head.
    + intros r c. apply strip_last.
Qed.

Lemma colon_first (pre pre' x y : pystr) :
  none (N.eqb COLON) pre -> none (N.eqb COLON) pre' ->
  pre ++ COLON :: x = pre' ++ COLON :: y -> x = y.
Proof.
  intros H. revert pre'. induction H as [|c pre Hc _ IH]; intros pre' H' E.
  - destruct H' as [|c' pre' Hc' _]; simpl in E.
    + by injection E.
    + injection E as <- _. by rewrite N.eqb_refl in Hc'.
  - destruct H' as [|c' pre' Hc' H']; simpl in E.
    + injection E as -> _. by rewrite N.eqb_refl in Hc.
    + injection E as _ E. by apply (IH pre').
Qed.

Lemma is_word_not_colon (c : char) : is_word c = true -> (COLON =? c) = false.
Proof. intros H. apply N.eqb_neq. intros <-. discriminate H. Qed.

Lemma is_space_not_colon (c : char) : is_space c = true -> (COLON =? c) = false.
Proof. intros H. apply N.eqb_neq. intros <-. discriminate H. Qed.

Lemma speaker_pattern_colon_only (tok : pystr) :
  all is_word tok -> speaker_pattern (tok ++ [COLON]) = None.
Proof.
  intros Htok. destruct (speaker_pattern (tok ++ [COLON])) as [[g1 g2]|] eqn:E; [|done].
  apply speaker_pattern_inv in E
    as (ws0 & ws1 & ws2 & tail & E & H0 & _ & Hg1 & H1 & H2 & Hne & _).
  rewrite (app_assoc g1), (app_assoc ws0) in E.
  apply colon_first in E.
  - destruct ws2, g2; done.
  - eapply Forall_impl; [exact Htok|]. apply is_word_not_colon.
  - rewrite !Forall_app. repeat split; eapply Forall_impl; eauto;
      auto using is_word_not_colon, is_space_not_colon.
Qed.

(** C5.  [preprocess_chat] is total, and its messages are, in the order of
    the lines, those of the lines of the input that are not blank once
    trimmed: a line of the shape [name: text] gives the token as speaker and
    the remainder as text, any other line gives the speaker [Unknown] and
    the whole trimmed line as text. *)
Theorem preprocess_chat_lines (chat_text : pystr) :
  Forall2
    (fun line m =>
       (forall tok rest, speaker_line line tok rest ->
          m = Message tok rest) /\
       ((forall tok rest, ~ speaker_line line tok rest) ->
          m = Message UNKNOWN line))
    (filter (fun l => l <> []) (strip <$> splitlines chat_text))
    (preprocess_chat chat_text).
Proof.
  rewrite preprocess_chat_eq. apply Forall2_fmap_r, Forall_Forall2_diag.
  apply Forall_forall. intros line Hin.
  apply list_elem_of_filter in Hin as [_ Hin].
  apply list_elem_of_fmap in Hin as (raw & -> & Hraw).
  apply line_message_trimmed.
  pose proof (splitlines_none chat_text) as H.
  rewrite Forall_forall in H. by apply H.
Qed.

(** C9.  A line whose trimmed form is a token and a colon does not match the
    pattern: its message has the speaker [Unknown] and the trimmed line,
    colon included, as text. *)
Theorem colon_only_line_unknown (chat_text raw tok : pystr) :
  raw ∈ splitlines chat_text ->
  strip raw = tok ++ [COLON] -> tok <> [] -> all is_word tok ->
  speaker_pattern (strip raw) = None /\
  line_message (strip raw) = Message UNKNOWN (tok ++ [COLON]) /\
  line_message (strip raw) ∈ preprocess_chat chat_text.
Proof.
  intros Hin E Hne Htok.
  assert (Hnone : speaker_pattern (strip raw) = None).
  { rewrite E. by apply speaker_pattern_colon_only. }
  split; [done|]. split.
  - unfold line_message. by rewrite Hnone, E.
  - rewrite preprocess_chat_eq. apply list_elem_of_fmap_2, list_elem_of_filter.
    split; [rewrite E; by destruct tok|]. by apply list_elem_of_fmap_2.
Qed.


(** ** Rounding *)

Local Open Scope Q_scope.

Lemma rne_bounds (x : Q) :
  inject_Z (rne x) - (1 # 2) <= x /\ x <= inject_Z (rne x) + (1 # 2).
Proof.
  unfold rne. pose proof (Qfloor_le x) as H1. pose proof (Qlt_floor x) as H2.
  rewrite inject_Z_plus in H2. change (inject_Z 1) with 1 in H2.
  destruct (Qcompare_spec (x - inject_Z (Qfloor x)) (1 # 2)) as [E|E|E];
    [destruct (Z.even (Qfloor x))| |];
    rewrite ?inject_Z_plus; change (inject_Z 1) with 1; split; lra.
Qed.

Lemma rne_ge (x : Q) (n : Z) : inject_Z n - (1 # 2) < x -> (n <= rne x)%Z.
Proof.
  intros H. destruct (rne_bounds x) as [_ H2].
  assert (inject_Z n < inject_Z (rne x) + 1) as H3 by lra.
  change 1 with (inject_Z 1) in H3. rewrite <- inject_Z_plus, <- Zlt_Qlt in H3. lia.
Qed.

Lemma rne_le (x : Q) (n : Z) : x < inject_Z n + (1 # 2) -> (rne x <= n)%Z.
Proof.
  intros H. destruct (rne_bounds x) as [H1 _].
  assert (inject_Z (rne x) < inject_Z n + 1) as H3 by lra.
  change 1 with (inject_Z 1) in H3. rewrite <- inject_Z_plus, <- Zlt_Qlt in H3. lia.
Qed.

(** ** Doubles *)

Lemma two_power_pos (z : Z) : 0 < 2 ^ z.
Proof. by apply Qpower_0_lt. Qed.

Lemma two_power_nat (k : Z) : (0 <= k)%Z -> 2 ^ k == inject_Z (2 ^ k).
Proof. intros H. by rewrite Zpower_Qpower. Qed.

Lemma binade_le (x : Q) : 0 < x -> 2 ^ binade x <= x.
Proof.
  intros Hx. unfold binade.
  destruct (Qle_bool _ x) eqn:E; [by apply Qle_bool_iff|]. clear E.
  destruct x as [n d]. cbn [Qnum Qden].
  assert (Hn : (0 < n)%Z).
  { unfold Qlt in Hx. simpl in Hx. lia. }
  pose proof (Z.log2_spec n Hn) as [Hn1 _].
  pose proof (Z.log2_spec (Z.pos d) (Pos2Z.is_pos d)) as [_ Hd2].
  pose proof (Z.log2_nonneg n) as Hln. pose proof (Z.log2_nonneg (Z.pos d)) as Hld.
  replace (Z.log2 n - Z.log2 (Z.pos d) - 1)%Z
    with (Z.log2 n - Z.succ (Z.log2 (Z.pos d)))%Z by lia.
  rewrite Qpower_minus by done.
  rewrite !two_power_nat by lia.
  set (A := (2 ^ Z.log2 n)%Z) in *. set (D := (2 ^ Z.succ (Z.log2 (Z.pos d)))%Z) in *.
  apply Qle_shift_div_r; [rewrite <- (Zlt_Qlt 0); lia|].
  rewrite (Qmake_Qdiv n d). unfold Qdiv. rewrite <- Qmult_assoc, (Qmult_comm (/ _)).
  rewrite Qmult_assoc. apply Qle_shift_div_l; [by rewrite <- (Zlt_Qlt 0)|].
  rewrite <- !inject_Z_mult, <- Zle_Qle. nia.
Qed.

Lemma binary64_pos (x : Q) :
  0 < x -> x * (1 - eps) <= binary64 x /\ binary64 x <= x * (1 + eps).
Proof.
  intros Hx. unfold binary64.
  destruct (Qeq_bool x 0) eqn:E0; [apply Qeq_bool_iff in E0; lra|]. clear E0.
  assert (Qle_bool 0 x = true) as -> by (apply Qle_bool_iff; lra).
  assert (Ha : Qabs x == x) by (apply Qabs_pos; lra).
  assert (Ha' : 0 < Qabs x) by lra.
  pose proof (binade_le _ Ha') as He.
  set (a := Qabs x) in *. set (e := binade a) in *.
  pose proof (two_power_pos (52 - e)) as HP. pose proof (two_power_pos e) as HE.
  assert (HY : 2 ^ 52 <= a * 2 ^ (52 - e)).
  { rewrite Qpower_minus by done. unfold Qdiv.
    rewrite (Qmult_comm (2 ^ 52)), Qmult_assoc.
    rewrite <- (Qmult_1_l (2 ^ 52)) at 1. apply Qmult_le_compat_r; [|done].
    apply Qle_shift_div_l; [done | lra]. }
  destruct (rne_bounds (a * 2 ^ (52 - e))) as [B1 B2].
  set (P := 2 ^ (52 - e)) in *. set (m := inject_Z (rne (a * P))) in *.
  change (2 ^ 52) with (inject_Z (2 ^ 52)) in HY.
  assert (Heps : (1 # 2) <= a * P * eps).
  { unfold eps. setoid_replace (1 # 2) with (inject_Z (2 ^ 52) * (1 # 2 ^ 53)) using relation Qeq by reflexivity.
    apply Qmult_le_compat_r; done. }
  rewrite Qmult_1_l. rewrite <- Ha. split.
  - apply Qle_shift_div_l; [done|].
    setoid_replace (a * (1 - eps) * P) with (a * P - a * P * eps) using relation Qeq by ring. lra.
  - apply Qle_shift_div_r; [done|].
    setoid_replace (a * (1 + eps) * P) with (a * P + a * P * eps) using relation Qeq by ring. lra.
Qed.

Lemma binary64_nonneg (x : Q) :
  0 <= x -> 0 <= binary64 x /\ binary64 x <= x * (1 + eps).
Proof.
  intros Hx. destruct (Qeq_bool x 0) eqn:E.
  - unfold binary64. rewrite E. apply Qeq_bool_iff in E.
    unfold eps. split; [lra|]. rewrite E. lra.
  - apply Qeq_bool_neq in E. assert (0 < x) as Hx'.
    { apply Qle_lteq in Hx as [H|H]; [done|]. destruct E. by symmetry. }
    destruct (binary64_pos x Hx') as [H1 H2]. split; [|done].
    assert (0 <= x * (1 - eps)); [|lra].
    apply Qmult_le_0_compat; [lra|]. unfold eps. by vm_compute.
Qed.

Lemma binade_lt (x : Q) : 0 < x -> x < 2 ^ (binade x + 1).
Proof.
  intros Hx. unfold binade.
  destruct (Qle_bool _ x) eqn:E.
  - clear E. destruct x as [n d]. cbn [Qnum Qden].
    assert (Hn : (0 < n)%Z).
    { unfold Qlt in Hx. simpl in Hx. lia. }
    pose proof (Z.log2_spec n Hn) as [_ Hn2].
    pose proof (Z.log2_spec (Z.pos d) (Pos2Z.is_pos d)) as [Hd1 _].
    pose proof (Z.log2_nonneg n) as Hln. pose proof (Z.log2_nonneg (Z.pos d)) as Hld.
    replace (Z.log2 n - Z.log2 (Z.pos d) + 1)%Z
      with (Z.succ (Z.log2 n) - Z.log2 (Z.pos d))%Z by lia.
    rewrite Qpower_minus by done. rewrite !two_power_nat by lia.
    set (A := (2 ^ Z.succ (Z.log2 n))%Z) in *. set (D := (2 ^ Z.log2 (Z.pos d))%Z) in *.
    assert (HD : (0 < D)%Z) by (subst D; apply Z.pow_pos_nonneg; lia).
    apply Qlt_shift_div_l; [by rewrite <- (Zlt_Qlt 0)|].
    rewrite (Qmake_Qdiv n d). unfold Qdiv. rewrite <- Qmult_assoc, (Qmult_comm (/ _)).
    rewrite Qmult_assoc. apply Qlt_shift_div_r; [by rewrite <- (Zlt_Qlt 0)|].
    rewrite <- !inject_Z_mult, <- Zlt_Qlt. nia.
  - replace (Z.log2 (Qnum x) - Z.log2 (Z.pos (Qden x)) - 1 + 1)%Z
      with (Z.log2 (Qnum x) - Z.log2 (Z.pos (Qden x)))%Z by lia.
    apply Qnot_le_lt. intros H. apply Qle_bool_iff in H. congruence.
Qed.

(** [binary64 x] has a significand of 53 bits, and no number of that binade
    with such a significand is nearer to [x]. *)
Lemma binary64_significand (x : Q) :
  0 < x ->
  exists (m s : Z),
    binary64 x == inject_Z m / 2 ^ s /\
    (2 ^ 52 <= m <= 2 ^ 53)%Z /\
    inject_Z m - (1 # 2) <= x * 2 ^ s /\ x * 2 ^ s <= inject_Z m + (1 # 2).
Proof.
  intros Hx. unfold binary64.
  destruct (Qeq_bool x 0) eqn:E0; [apply Qeq_bool_iff in E0; lra|]. clear E0.
  assert (Qle_bool 0 x = true) as -> by (apply Qle_bool_iff; lra).
  assert (Ha : Qabs x == x) by (apply Qabs_pos; lra).
  assert (Ha' : 0 < Qabs x) by lra.
  pose proof (binade_le _ Ha') as He. pose proof (binade_lt _ Ha') as He'.
  set (a := Qabs x) in *. set (e := binade a) in *.
  exists (rne (a * 2 ^ (52 - e))), (52 - e)%Z.
  pose proof (two_power_pos (52 - e)) as HP. pose proof (two_power_pos e) as HE.
  assert (HY : 2 ^ 52 <= a * 2 ^ (52 - e) /\ a * 2 ^ (52 - e) < 2 ^ 53).
  { rewrite Qpower_minus by done. unfold Qdiv.
    rewrite (Qmult_comm (2 ^ 52)), Qmult_assoc.
    rewrite Qpower_plus in He' by done. change (2 ^ 1) with 2 in He'.
    assert (H1 : 1 <= a * / 2 ^ e) by (apply Qle_shift_div_l; [done | lra]).
    assert (H2 : a * / 2 ^ e < 2) by (apply Qlt_shift_div_r; [done | lra]).
    change (2 ^ 53) with (2 * 2 ^ 52). change (2 ^ 52) with 4503599627370496.
    lra. }
  destruct HY as [HY1 HY2].
  destruct (rne_bounds (a * 2 ^ (52 - e))) as [B1 B2].
  split; [by rewrite Qmult_1_l|]. split; [|rewrite <- Ha; done].
  split.
  - apply rne_ge. change (inject_Z (2 ^ 52)) with (2 ^ 52). lra.
  - apply rne_le. change (inject_Z (2 ^ 53)) with (2 ^ 53). lra.
Qed.

(** Well-known doubles: [0.1], [0.7] and [0.005]. *)
Example binary64_tenth : binary64 (1 # 10) == 3602879701896397 # 2 ^ 55.
Proof. reflexivity. Qed.

Example binary64_0_7 : binary64 (7 # 10) == 3152519739159347 # 2 ^ 52.
Proof. reflexivity. Qed.

Example binary64_0_005 : binary64 (5 # 1000) == 5764607523034235 # 2 ^ 60.
Proof. reflexivity. Qed.

(** [round(0.005, 2)] is [0.01] and [round(0.015, 2)] is [0.01], as the doubles
    lie above and below the decimals; [round(0.125, 2)] is a tie and goes to
    the even [0.12]. *)
Example round2_samples :
  round2 (binary64 (5 # 1000)) = 0.01 /\ round2 (binary64 (15 # 1000)) = 0.01 /\
  round2 (binary64 (125 # 1000)) = 0.12.
Proof. vm_compute. auto. Qed.

Lemma Qle_by_bool (x y : Q) : Qle_bool x y = true -> x <= y.
Proof. apply Qle_bool_iff. Qed.

Ltac qcompute := apply Qle_by_bool; vm_compute; reflexivity.

Lemma eps_bounds : 0 < eps /\ eps <= 1 # 1000000.
Proof. unfold eps. split; [reflexivity | qcompute]. Qed.

(** The value of [a + (b - a) * u] on doubles, for [u] in [[0, 1]]. *)
Lemma uniform_bounds (a b u : Q) :
  0 < a -> a <= b -> 0 <= u -> u <= 1 ->
  a * (1 - eps) <= binary64 (a + binary64 (binary64 (b - a) * u)) /\
  binary64 (a + binary64 (binary64 (b - a) * u))
    <= (a + binary64 (b - a) * (1 + eps)) * (1 + eps).
Proof.
  intros Ha Hab Hu0 Hu1. destruct eps_bounds as [He0 He1].
  destruct (binary64_nonneg (b - a)) as [Hw _]; [lra|].
  set (w := binary64 (b - a)) in *.
  assert (Hwu0 : 0 <= w * u) by (by apply Qmult_le_0_compat).
  assert (Hwu1 : w * u <= w).
  { rewrite <- (Qmult_1_r w) at 2. rewrite !(Qmult_comm w).
    by apply Qmult_le_compat_r. }
  destruct (binary64_nonneg (w * u) Hwu0) as [Hp0 Hp1].
  set (p := binary64 (w * u)) in *.
  assert (Hp2 : p <= w * (1 + eps)).
  { eapply Qle_trans; [exact Hp1|]. apply Qmult_le_compat_r; lra. }
  destruct (binary64_pos (a + p)) as [HX0 HX1]; [lra|].
  set (X := binary64 (a + p)) in *. split.
  - eapply Qle_trans; [|exact HX0]. apply Qmult_le_compat_r; lra.
  - eapply Qle_trans; [exact HX1|]. apply Qmult_le_compat_r; lra.
Qed.

Lemma random_range (g : rng) : 0 <= fst (random g) /\ fst (random g) <= 1.
Proof.
  unfold random. cbn [fst].
  pose proof (N.mod_upper_bound (stream g (pos g)) (2 ^ 53)) as H.
  unfold Qle. cbn [Qnum Qden]. split.
  { rewrite Z.mul_0_l, Z.mul_1_r. apply N2Z.is_nonneg. }
  rewrite Z.mul_1_r, Z.mul_1_l. change (Z.pos (2 ^ 53)) with (Z.of_N (2 ^ 53)).
  apply N2Z.inj_le, N.lt_le_incl, H. done.
Qed.

Lemma round2_range (x : Q) (lo hi : Z) :
  inject_Z lo - (1 # 2) < 100 * x -> 100 * x < inject_Z hi + (1 # 2) ->
  lo # 100 <= round2 x /\ round2 x <= hi # 100.
Proof.
  intros H1 H2. apply rne_ge in H1. apply rne_le in H2.
  unfold round2, Qle. cbn [Qnum Qden]. lia.
Qed.

Lemma round2_uniform (a b : Q) (lo hi : Z) (g : rng) :
  0 < a -> a <= b ->
  inject_Z lo - (1 # 2) < 100 * (a * (1 - eps)) ->
  100 * ((a + binary64 (b - a) * (1 + eps)) * (1 + eps)) < inject_Z hi + (1 # 2) ->
  lo # 100 <= round2 (fst (uniform a b g)) /\ round2 (fst (uniform a b g)) <= hi # 100.
Proof.
  intros Ha Hab Hlo Hhi. destruct (random_range g) as [Hu0 Hu1].
  unfold uniform, bind, ret. destruct (random g) as [u g']. cbn [fst] in *.
  destruct (uniform_bounds a b u) as [H1 H2]; [done..|].
  apply round2_range; lra.
Qed.

Ltac qlt := apply Qlt_alt; vm_compute; reflexivity.

(** The confidence of the rule-based classifier. *)
Lemma confidence_rule_range (g : rng) :
  0.70 <= round2 (fst (uniform f0_7 f0_95 g)) /\
  round2 (fst (uniform f0_7 f0_95 g)) <= 0.95.
Proof. apply (round2_uniform f0_7 f0_95 70 95); [qlt | qcompute | qlt | qlt]. Qed.

(** The confidence of an overridden message. *)
Lemma confidence_pressured_range (g : rng) :
  0.75 <= round2 (fst (uniform f0_75 f0_97 g)) /\
  round2 (fst (uniform f0_75 f0_97 g)) <= 0.97.
Proof. apply (round2_uniform f0_75 f0_97 75 97); [qlt | qcompute | qlt | qlt]. Qed.

(** [round(c / t, 2)] for [c <= t]. *)
Lemma influence_range (c t : nat) :
  (c <= t)%nat -> (1 <= t)%nat ->
  0 <= round2 (true_div c t) /\ round2 (true_div c t) <= 1.
Proof.
  intros Hct Ht. unfold true_div.
  set (q := inject_Z (Z.of_nat c) / inject_Z (Z.of_nat t)).
  assert (Hq0 : 0 <= q).
  { apply Qle_shift_div_l; [rewrite <- (Zlt_Qlt 0); lia|].
    rewrite Qmult_0_l, <- (Zle_Qle 0). lia. }
  assert (Hq1 : q <= 1).
  { apply Qle_shift_div_r; [rewrite <- (Zlt_Qlt 0); lia|].
    rewrite Qmult_1_l, <- Zle_Qle. lia. }
  destruct (binary64_nonneg q Hq0) as [H1 H2]. destruct eps_bounds as [He0 He1].
  assert (H3 : binary64 q <= 1 + eps).
  { eapply Qle_trans; [exact H2|]. rewrite <- (Qmult_1_l (1 + eps)) at 2.
    apply Qmult_le_compat_r; lra. }
  destruct (round2_range (binary64 q) 0 100) as [R1 R2].
  - cbv [inject_Z]. lra.
  - cbv [inject_Z]. lra.
  - split; [eapply Qle_trans; [|exact R1] | eapply Qle_trans; [exact R2|]]; qcompute.
Qed.

Local Close Scope Q_scope.

(** ** The analyzer *)

Section AnalyzerProperties.

Context (lower : pystr -> pystr).

Lemma neq_true (a b : pystr) : neq a b = true <-> a <> b.
Proof. unfold neq. rewrite negb_true_iff, bool_decide_eq_false. done. Qed.

Lemma neq_false (a b : pystr) : neq a b = false <-> a = b.
Proof. unfold neq. rewrite negb_false_iff, bool_decide_eq_true. done. Qed.

Lemma analyze_message_eq (text : pystr) (g : rng) :
  analyze_message lower text g =
  ((rule_label lower text, round2 (fst (uniform f0_7 f0_95 g)), rule_text lower text),
   snd (uniform f0_7 f0_95 g)).
Proof.
  unfold analyze_message, rule_label, rule_text, bind, ret.
  destruct (first_rule _ _) as [[l t]|]; by destruct (uniform f0_7 f0_95 g).
Qed.

(** The two outcomes of one turn of the loop. *)
Lemma analyze_step_eq (msg : message) (prev : option analysis) (g : rng) :
  let cur_speaker := default UNKNOWN (msg !! "speaker"%string) in
  let cur_text := default [] (msg !! "text"%string) in
  let g1 := snd (uniform f0_7 f0_95 g) in
  analyze_step lower msg prev g =
  match prev with
  | Some p =>
      if pressured (contains_acceptance (_norm lower cur_text)) prev cur_speaker then
        (Analysis cur_speaker cur_text PRESSURED (round2 (fst (uniform f0_75 f0_97 g1)))
           (pressured_explanation (speaker p)),
         snd (uniform f0_75 f0_97 g1))
      else
        (Analysis cur_speaker cur_text (rule_label lower cur_text)
           (round2 (fst (uniform f0_7 f0_95 g))) (rule_text lower cur_text), g1)
  | None =>
      (Analysis cur_speaker cur_text (rule_label lower cur_text)
         (round2 (fst (uniform f0_7 f0_95 g))) (rule_text lower cur_text), g1)
  end.
Proof.
  intros. unfold analyze_step, bind. rewrite analyze_message_eq.
  fold cur_text cur_speaker g1. destruct prev as [p|]; [|done].
  destruct (pressured _ _ _); [|done]. unfold ret.
  by destruct (uniform f0_75 f0_97 g1).
Qed.

Lemma analyze_loop_eq (msgs : list message) (acc : list analysis) (cnt : nat)
    (prev : option analysis) (g : rng) :
  analyze_loop lower msgs acc cnt prev g =
  ((acc ++ fst (analyses lower msgs prev g),
    (cnt + length (filter (fun a => label a <> NEUTRAL)
                   (fst (analyses lower msgs prev g))))%nat),
   snd (analyses lower msgs prev g)).
Proof.
  revert acc cnt prev g. induction msgs as [|msg msgs IH]; intros acc cnt prev g.
  - simpl. unfold ret. by rewrite app_nil_r, Nat.add_0_r.
  - cbn [analyze_loop analyses]. unfold bind.
    destruct (analyze_step lower msg prev g) as [a g1].
    rewrite IH. destruct (analyses lower msgs (Some a) g1) as [l g2]. cbn [fst snd].
    rewrite <- app_assoc. cbn [app]. f_equal. f_equal.
    destruct (neq (label a) NEUTRAL) eqn:E.
    + apply neq_true in E. rewrite filter_cons_True by done. simpl. lia.
    + apply neq_false in E. rewrite filter_cons_False by auto. done.
Qed.

Lemma analyze_chat_eq (msgs : list message) (g : rng) :
  analyze_chat lower msgs g =
  (Result (fst (analyses lower msgs None g))
     (round2 (true_div
        (length (filter (fun a => label a <> NEUTRAL) (fst (analyses lower msgs None g))))
        (Nat.max (length msgs) 1))),
   snd (analyses lower msgs None g)).
Proof. unfold analyze_chat, bind, ret. by rewrite analyze_loop_eq. Qed.

Lemma analyses_length (msgs : list message) (prev : option analysis) (g : rng) :
  length (fst (analyses lower msgs prev g)) = length msgs.
Proof.
  revert prev g. induction msgs as [|msg msgs IH]; intros prev g; [done|].
  cbn [analyses]. destruct (analyze_step lower msg prev g) as [a g1].
  specialize (IH (Some a) g1). destruct (analyses lower msgs (Some a) g1) as [l g2].
  simpl in *. by rewrite IH.
Qed.

(** Each analysis comes from one turn of the loop on the message of the same
    position, with the analysis just before it as the previous one. *)
Lemma analyses_lookup (msgs : list message) (prev : option analysis) (g : rng)
    (i : nat) (a : analysis) :
  fst (analyses lower msgs prev g) !! i = Some a ->
  exists msg gi,
    msgs !! i = Some msg /\
    a = fst (analyze_step lower msg
               (match i with
                | O => prev
                | S j => fst (analyses lower msgs prev g) !! j
                end) gi).
Proof.
  revert prev g i. induction msgs as [|msg msgs IH]; intros prev g i; [done|].
  cbn [analyses]. destruct (analyze_step lower msg prev g) as [a0 g1] eqn:E0.
  specialize (IH (Some a0) g1).
  destruct (analyses lower msgs (Some a0) g1) as [l g2]. cbn [fst] in *.
  destruct i as [|i]; simpl.
  - intros [= <-]. exists msg, g. by rewrite E0.
  - intros H. destruct (IH i H) as (m & gi & Hm & Ha).
    exists m, gi. split; [done|]. by destruct i.
Qed.

Lemma pressured_iff (ca : bool) (prev : option analysis) (spk : pystr) :
  pressured ca prev spk = true <->
  ca = true /\ exists p, prev = Some p /\ label p <> NEUTRAL /\ speaker p <> spk.
Proof.
  unfold pressured. rewrite andb_true_iff. destruct prev as [p|].
  - rewrite andb_true_iff, !neq_true. split.
    + intros [Hc [H1 H2]]. split; [done|]. exists p. auto.
    + intros [Hc (p' & [= <-] & H1 & H2)]. auto.
  - split; [intros [_ H]; discriminate | intros [_ (p & H & _)]; discriminate].
Qed.

Lemma contains_acceptance_iff (n : pystr) :
  contains_acceptance n = true <-> exists k, k ∈ ACCEPTANCE_KEYWORDS /\ occurs k n.
Proof.
  unfold contains_acceptance, occurs. rewrite existsb_exists.
  split; intros (k & H1 & H2); exists k.
  - apply list_elem_of_In in H1. by apply contains_spec in H2.
  - apply list_elem_of_In in H1. by apply contains_spec in H2.
Qed.

Lemma step_fields (msg : message) (prev : option analysis) (g : rng) :
  let a := fst (analyze_step lower msg prev g) in
  speaker a = default UNKNOWN (msg !! "speaker"%string) /\
  text a = default [] (msg !! "text"%string) /\
  label a =
    (if pressured (contains_acceptance (_norm lower (text a))) prev (speaker a)
     then PRESSURED else rule_label lower (text a)) /\
  (pressured (contains_acceptance (_norm lower (text a))) prev (speaker a) = false ->
   explanation a = rule_text lower (text a)) /\
  (forall p, prev = Some p ->
   pressured (contains_acceptance (_norm lower (text a))) prev (speaker a) = true ->
   explanation a = pressured_explanation (speaker p)).
Proof.
  intros a. subst a. rewrite analyze_step_eq. destruct prev as [p|].
  - destruct (pressured _ _ _) eqn:E; cbn [fst speaker text label explanation];
      rewrite E; repeat split; try done. by intros ? [= ->].
  - cbn [fst speaker text label explanation].
    unfold pressured. rewrite andb_false_r. repeat split; done.
Qed.

Lemma first_rule_in (n : pystr) (rules : list (pystr * list pystr)) (l t : pystr) :
  first_rule n rules = Some (l, t) -> l ∈ rules.*1.
Proof.
  induction rules as [|[l0 ts] rules IH]; simpl; [done|].
  destruct (first_trigger n ts); [intros [= -> _]; left | right; auto].
Qed.

(** The classifier never answers [pressured acceptance]. *)
Lemma rule_label_not_pressured (text : pystr) : rule_label lower text <> PRESSURED.
Proof.
  unfold rule_label. destruct (first_rule _ _) as [[l t]|] eqn:E; [|done].
  apply first_rule_in, list_elem_of_In in E. intros ->.
  vm_compute in E. destruct E as [H|[H|[H|[]]]]; discriminate H.
Qed.

Lemma messages_analyze_chat (msgs : list message) (g : rng) :
  messages (fst (analyze_chat lower msgs g)) = fst (analyses lower msgs None g).
Proof. by rewrite analyze_chat_eq. Qed.

(** One turn of the loop, for the analysis at position [i] of a run. *)
Lemma analyze_chat_lookup (msgs : list message) (g : rng) (i : nat) (a : analysis) :
  messages (fst (analyze_chat lower msgs g)) !! i = Some a ->
  exists msg gi,
    msgs !! i = Some msg /\
    a = fst (analyze_step lower msg
               (previous (messages (fst (analyze_chat lower msgs g))) i) gi).
Proof. rewrite messages_analyze_chat. apply analyses_lookup. Qed.

(** C10.  [analyze_chat] returns one analysis per message, in the order of
    the messages, with the speaker and the text of the message: the value
    under the key when the message has it, the default of [get] otherwise. *)
Theorem analyze_chat_keeps_messages (msgs : list message) (g : rng) :
  Forall2
    (fun msg a =>
       speaker a = default UNKNOWN (msg !! "speaker"%string) /\
       text a = default [] (msg !! "text"%string) /\
       (forall s t, msg = Message s t -> speaker a = s /\ text a = t))
    msgs (messages (fst (analyze_chat lower msgs g))).
Proof.
  rewrite messages_analyze_chat. apply Forall2_same_length_lookup_2.
  - by rewrite analyses_length.
  - intros i msg a Hmsg Ha.
    apply analyses_lookup in Ha as (msg' & gi & Hmsg' & ->).
    assert (msg' = msg) as -> by congruence.
    destruct (step_fields msg
      (match i with O => None | S j => fst (analyses lower msgs None g) !! j end) gi)
      as (Hs & Ht & _).
    split; [done|]. split; [done|]. intros s t ->. by rewrite Hs, Ht.
Qed.

(** C1.  The message at position [i] is overridden exactly when a keyword of
    the list occurs in its normalized text and the finalized analysis just
    before it exists, is not neutral and has another speaker than the
    message; then its label is [pressured acceptance] and its explanation
    names that speaker; when one of the three conditions fails, label and
    explanation are those of [analyze_message] for the text of the
    message. *)
Theorem pressured_acceptance_iff (msgs : list message) (g : rng) (i : nat)
    (msg : message) :
  let r := fst (analyze_chat lower msgs g) in
  let cur_speaker := default UNKNOWN (msg !! "speaker"%string) in
  let cur_text := default [] (msg !! "text"%string) in
  msgs !! i = Some msg ->
  let keyword :=
    exists k, k ∈ ACCEPTANCE_KEYWORDS /\ occurs k (_norm lower cur_text) in
  let manipulated :=
    exists p, previous (messages r) i = Some p /\ label p <> NEUTRAL /\
              speaker p <> cur_speaker in
  exists a,
    messages r !! i = Some a /\
    (label a = PRESSURED <-> keyword /\ manipulated) /\
    (forall p, keyword -> previous (messages r) i = Some p -> label p <> NEUTRAL ->
       speaker p <> cur_speaker ->
       label a = PRESSURED /\ explanation a = pressured_explanation (speaker p)) /\
    (~ (keyword /\ manipulated) ->
     forall g', label a = (analyze_message lower cur_text g').1.1.1 /\
                explanation a = (analyze_message lower cur_text g').1.2).
Proof.
  intros r cur_speaker cur_text Hmsg keyword manipulated.
  destruct (lookup_lt_is_Some_2 (messages r) i) as [a Ha].
  { subst r. rewrite messages_analyze_chat, analyses_length.
    by apply lookup_lt_Some in Hmsg. }
  exists a. split; [done|].
  destruct (analyze_chat_lookup msgs g i a Ha) as (msg' & gi & Hmsg' & E).
  assert (msg' = msg) as -> by congruence.
  fold r in E. set (prev := previous (messages r) i) in *.
  destruct (step_fields msg prev gi) as (Hs & Ht & Hl & He1 & He2).
  rewrite <- E in Hs, Ht, Hl, He1, He2. clear E.
  fold cur_speaker in Hs. fold cur_text in Ht. rewrite Hs, Ht in Hl, He1, He2.
  assert (Hiff : pressured (contains_acceptance (_norm lower cur_text)) prev cur_speaker
                 = true <-> keyword /\ manipulated).
  { rewrite pressured_iff, contains_acceptance_iff. done. }
  destruct (pressured _ prev cur_speaker) eqn:Ep.
  - assert (Hc : keyword /\ manipulated) by (by apply Hiff).
    split; [done|]. split.
    + intros p _ Hp _ _. split; [done|]. by apply He2.
    + intros Hn. by destruct Hn.
  - assert (Hn : ~ (keyword /\ manipulated)).
    { intros Hc. apply Hiff in Hc. discriminate. }
    split; [|split].
    + split; [|done]. intros Hp. rewrite Hl in Hp.
      by apply rule_label_not_pressured in Hp.
    + intros p Hk Hp H1 H2. destruct Hn. split; [done|]. by exists p.
    + intros _ g'. rewrite analyze_message_eq. cbn [fst snd]. auto.
Qed.

Lemma contains_occurs (sub s : pystr) : contains sub s = true <-> occurs sub s.
Proof. apply contains_spec. Qed.

Lemma not_occurs (sub s : pystr) : ~ occurs sub s -> contains sub s = false.
Proof. intros H. apply not_true_is_false. by rewrite contains_occurs. Qed.

Lemma first_trigger_lookup (n : pystr) (ts : list pystr) (k : nat) (trig : pystr) :
  ts !! k = Some trig -> occurs trig n ->
  (forall k' t, (k' < k)%nat -> ts !! k' = Some t -> ~ occurs t n) ->
  first_trigger n ts = Some trig.
Proof.
  revert k. induction ts as [|t0 ts IH]; intros k Hk Hocc Hbefore; [done|].
  destruct k as [|k]; simpl in *.
  - injection Hk as ->. apply contains_occurs in Hocc. by rewrite Hocc.
  - rewrite (not_occurs t0 n); [|apply (Hbefore 0%nat); [lia | done]].
    apply (IH k); [done | done |]. intros k' t Hlt Ht.
    apply (Hbefore (S k')); [lia | done].
Qed.

Lemma first_trigger_none (n : pystr) (ts : list pystr) :
  (forall t, t ∈ ts -> ~ occurs t n) -> first_trigger n ts = None.
Proof.
  induction ts as [|t0 ts IH]; intros H; simpl; [done|].
  rewrite (not_occurs t0 n); [|apply H; left].
  apply IH. intros t Ht. apply H. by right.
Qed.

Lemma first_trigger_some (n : pystr) (ts : list pystr) (t : pystr) :
  t ∈ ts -> occurs t n -> is_Some (first_trigger n ts).
Proof.
  induction ts as [|t0 ts IH]; intros Hin Hocc; simpl.
  - by apply elem_of_nil in Hin.
  - destruct (contains t0 n) eqn:E; [by eexists|].
    apply elem_of_cons in Hin as [->|Hin]; [|by apply IH].
    apply contains_occurs in Hocc. congruence.
Qed.

Lemma first_rule_lookup (n : pystr) (rules : list (pystr * list pystr)) (i : nat)
    (cat : pystr) (ts : list pystr) (trig : pystr) :
  rules !! i = Some (cat, ts) -> first_trigger n ts = Some trig ->
  (forall i' c' ts' t, (i' < i)%nat -> rules !! i' = Some (c', ts') -> t ∈ ts' ->
     ~ occurs t n) ->
  first_rule n rules = Some (cat, trig).
Proof.
  revert i. induction rules as [|[c0 ts0] rules IH]; intros i Hi Hts Hbefore; [done|].
  destruct i as [|i]; simpl in *.
  - injection Hi as -> ->. by rewrite Hts.
  - rewrite first_trigger_none.
    + apply (IH i); [done | done |]. intros i' c' ts' t Hlt Hr.
      apply (Hbefore (S i') c' ts' t); [lia | done].
    + intros t Ht. apply (Hbefore 0%nat c0 ts0); [lia | done | done].
Qed.

Lemma first_rule_none (n : pystr) (rules : list (pystr * list pystr)) :
  (forall c ts t, (c, ts) ∈ rules -> t ∈ ts -> ~ occurs t n) ->
  first_rule n rules = None.
Proof.
  induction rules as [|[c0 ts0] rules IH]; intros H; simpl; [done|].
  rewrite first_trigger_none.
  - apply IH. intros c ts t Hin. apply (H c ts t). by right.
  - intros t. apply (H c0 ts0 t). left.
Qed.

(** C3.  The categories are tried in the order guilt-tripping, flattery,
    fear-pressure and the triggers of a category in the order of its list:
    the first trigger that occurs in the normalized text gives the label and
    is named in the explanation; the label is the first category one of
    whose triggers occurs; without any trigger the message is neutral. *)
Theorem classifier_priority (text : pystr) (g : rng) :
  let n := _norm lower text in
  let out := (analyze_message lower text g).1 in
  MANIPULATION_RULES.*1 = [py "guilt-tripping"; py "flattery"; py "fear-pressure"] /\
  (forall i cat ts k trig,
     MANIPULATION_RULES !! i = Some (cat, ts) -> ts !! k = Some trig ->
     occurs trig n ->
     (forall i' c' ts' t, (i' < i)%nat -> MANIPULATION_RULES !! i' = Some (c', ts') ->
        t ∈ ts' -> ~ occurs t n) ->
     (forall k' t, (k' < k)%nat -> ts !! k' = Some t -> ~ occurs t n) ->
     out.1.1 = cat /\ out.2 = rule_explanation trig cat) /\
  (forall i cat ts t,
     MANIPULATION_RULES !! i = Some (cat, ts) -> t ∈ ts -> occurs t n ->
     (forall i' c' ts' t', (i' < i)%nat -> MANIPULATION_RULES !! i' = Some (c', ts') ->
        t' ∈ ts' -> ~ occurs t' n) ->
     out.1.1 = cat) /\
  ((forall c ts t, (c, ts) ∈ MANIPULATION_RULES -> t ∈ ts -> ~ occurs t n) ->
   out.1.1 = NEUTRAL /\ out.2 = py "No manipulation keyword detected.").
Proof.
  intros n out. subst out. rewrite analyze_message_eq. cbn [fst snd].
  unfold rule_label, rule_text. fold n. split; [done|]. split; [|split].
  - intros i cat ts k trig Hi Hk Hocc Hcats Htrigs.
    rewrite (first_rule_lookup n _ i cat ts trig); [done | done | | done].
    by apply (first_trigger_lookup n ts k).
  - intros i cat ts t Hi Ht Hocc Hcats.
    destruct (first_trigger_some n ts t Ht Hocc) as [trig Htrig].
    by rewrite (first_rule_lookup n _ i cat ts trig).
  - intros H. by rewrite first_rule_none.
Qed.

Lemma pressured_ext (ca : bool) (prev prev' : option analysis) (spk : pystr) :
  verdict <$> prev = verdict <$> prev' ->
  pressured ca prev spk = pressured ca prev' spk.
Proof.
  destruct prev as [p|], prev' as [p'|]; simpl; try done.
  unfold verdict. intros [= H1 H2]. unfold pressured. by rewrite H1, H2.
Qed.

(** C4.  The label of a message is a function of the message and of the
    label and the speaker of the finalized analysis just before it, whatever
    the rest of the two runs; and a previous analysis that was itself
    overridden counts as not neutral. *)
Theorem label_one_step_dependency :
  (forall (msgs msgs' : list message) (g g' : rng) (i j : nat) (a a' : analysis),
     let r := fst (analyze_chat lower msgs g) in
     let r' := fst (analyze_chat lower msgs' g') in
     messages r !! i = Some a -> messages r' !! j = Some a' ->
     msgs !! i = msgs' !! j ->
     verdict <$> previous (messages r) i
       = verdict <$> previous (messages r') j ->
     label a = label a') /\
  (forall (msgs : list message) (g : rng) (i : nat) (a p : analysis),
     let r := fst (analyze_chat lower msgs g) in
     messages r !! i = Some a -> previous (messages r) i = Some p ->
     label p = PRESSURED -> speaker p <> speaker a ->
     (exists k, k ∈ ACCEPTANCE_KEYWORDS /\ occurs k (_norm lower (text a))) ->
     label a = PRESSURED).
Proof.
  split.
  - intros msgs msgs' g g' i j a a' r r' Ha Ha' Hmsg Hprev.
    destruct (analyze_chat_lookup msgs g i a Ha) as (msg & gi & Hm & E).
    destruct (analyze_chat_lookup msgs' g' j a' Ha') as (msg' & gj & Hm' & E').
    assert (msg' = msg) as -> by congruence.
    fold r in E. fold r' in E'.
    destruct (step_fields msg (previous (messages r) i) gi) as (Hs & Ht & Hl & _).
    destruct (step_fields msg (previous (messages r') j) gj) as (Hs' & Ht' & Hl' & _).
    rewrite <- E in Hs, Ht, Hl. rewrite <- E' in Hs', Ht', Hl'.
    rewrite Hl, Hl', Hs, Hs', Ht, Ht'.
    by rewrite (pressured_ext _ _ _ _ Hprev).
  - intros msgs g i a p r Ha Hp Hlab Hspk Hkw.
    destruct (analyze_chat_lookup msgs g i a Ha) as (msg & gi & Hm & E).
    fold r in E.
    destruct (step_fields msg (previous (messages r) i) gi) as (_ & _ & Hl & _).
    rewrite <- E in Hl. rewrite Hl.
    assert (pressured (contains_acceptance (_norm lower (text a)))
              (previous (messages r) i) (speaker a) = true) as ->; [|done].
    apply pressured_iff. split; [by apply contains_acceptance_iff|].
    exists p. split; [done|]. split; [|done]. by rewrite Hlab.
Qed.

Lemma step_same_verdict (msg : message) (prev1 prev2 : option analysis) (g1 g2 : rng) :
  verdict <$> prev1 = verdict <$> prev2 ->
  same_verdict (fst (analyze_step lower msg prev1 g1))
               (fst (analyze_step lower msg prev2 g2)).
Proof.
  intros H. rewrite !analyze_step_eq.
  rewrite (pressured_ext _ prev1 prev2 _ H).
  destruct prev1 as [p1|], prev2 as [p2|]; try done.
  injection H as H1 H2.
  destruct (pressured _ _ _); cbn [fst]; repeat split; cbn; by rewrite ?H2.
Qed.

Lemma analyses_same_verdict (msgs : list message) (prev1 prev2 : option analysis)
    (g1 g2 : rng) :
  verdict <$> prev1 = verdict <$> prev2 ->
  Forall2 same_verdict (fst (analyses lower msgs prev1 g1))
                       (fst (analyses lower msgs prev2 g2)).
Proof.
  revert prev1 prev2 g1 g2.
  induction msgs as [|msg msgs IH]; intros prev1 prev2 g1 g2 H; [constructor|].
  cbn [analyses]. pose proof (step_same_verdict msg prev1 prev2 g1 g2 H) as Hs.
  destruct (analyze_step lower msg prev1 g1) as [a1 g1'].
  destruct (analyze_step lower msg prev2 g2) as [a2 g2']. cbn [fst] in Hs.
  assert (Hv : verdict <$> Some a1 = verdict <$> Some a2).
  { destruct Hs as (Hs1 & _ & Hs3 & _). simpl. unfold verdict. by rewrite Hs1, Hs3. }
  specialize (IH (Some a1) (Some a2) g1' g2' Hv).
  destruct (analyses lower msgs (Some a1) g1') as [l1 ?].
  destruct (analyses lower msgs (Some a2) g2') as [l2 ?].
  by constructor.
Qed.

Lemma same_verdict_count (l1 l2 : list analysis) :
  Forall2 same_verdict l1 l2 ->
  length (filter (fun a => label a <> NEUTRAL) l1)
  = length (filter (fun a => label a <> NEUTRAL) l2).
Proof.
  induction 1 as [|a b l1 l2 (_ & _ & Hl & _) _ IH]; [done|].
  rewrite !filter_cons, <- Hl. destruct (decide (label a <> NEUTRAL)); simpl; by rewrite IH.
Qed.

(** Where the confidence of one turn of the loop comes from. *)
Lemma step_confidence (msg : message) (prev : option analysis) (g : rng) :
  let a := fst (analyze_step lower msg prev g) in
  (label a = PRESSURED ->
   exists g', confidence a = round2 (fst (uniform f0_75 f0_97 g'))) /\
  (label a <> PRESSURED ->
   exists g', confidence a = round2 (fst (uniform f0_7 f0_95 g'))).
Proof.
  intros a. subst a. rewrite analyze_step_eq.
  destruct prev as [p|]; [destruct (pressured _ _ _)|]; cbn [fst label confidence].
  - split; [eauto | done].
  - split; [|eauto]. intros H. by apply rule_label_not_pressured in H.
  - split; [|eauto]. intros H. by apply rule_label_not_pressured in H.
Qed.

Lemma analyses_Forall (P : analysis -> Prop) (msgs : list message)
    (prev : option analysis) (g : rng) :
  (forall msg prev g, P (fst (analyze_step lower msg prev g))) ->
  Forall P (fst (analyses lower msgs prev g)).
Proof.
  intros H. apply Forall_lookup. intros i a Ha.
  apply analyses_lookup in Ha as (msg & gi & _ & ->). apply H.
Qed.

(** C7.  Two runs on the same messages, whatever the two generator states,
    agree on every speaker, text, label and explanation and on the influence
    score; each confidence lies in the range of its kind. *)
Theorem analyze_chat_reproducible (msgs : list message) (g1 g2 : rng) :
  let r1 := fst (analyze_chat lower msgs g1) in
  let r2 := fst (analyze_chat lower msgs g2) in
  Forall2 same_verdict (messages r1) (messages r2) /\
  influence_score r1 = influence_score r2 /\
  Forall
    (fun a =>
       if bool_decide (label a = PRESSURED)
       then (0.75 <= confidence a)%Q /\ (confidence a <= 0.97)%Q
       else (0.70 <= confidence a)%Q /\ (confidence a <= 0.95)%Q)
    (messages r1 ++ messages r2).
Proof.
  intros r1 r2. subst r1 r2. rewrite !analyze_chat_eq. cbn [fst messages influence_score].
  pose proof (analyses_same_verdict msgs None None g1 g2 eq_refl) as H.
  split; [done|]. split.
  - by rewrite (same_verdict_count _ _ H).
  - apply Forall_app. split; apply analyses_Forall; intros msg prev g;
      destruct (step_confidence msg prev g) as [Hp Hr]; case_bool_decide as E.
    + destruct (Hp E) as [g' ->]. apply confidence_pressured_range.
    + destruct (Hr E) as [g' ->]. apply confidence_rule_range.
    + destruct (Hp E) as [g' ->]. apply confidence_pressured_range.
    + destruct (Hr E) as [g' ->]. apply confidence_rule_range.
Qed.

(** C6.  The confidence of [analyze_message] is a draw of [uniform(0.7, 0.95)]
    rounded to two decimals, with or without a trigger, and lies in
    [[0.70, 0.95]]; the one of an overridden message is a rounded draw of
    [uniform(0.75, 0.97)] and lies in [[0.75, 0.97]]; so every confidence of
    a result lies in [[0.70, 0.97]]. *)
Theorem confidence_ranges :
  (forall (text : pystr) (g : rng),
     let c := (analyze_message lower text g).1.1.2 in
     c = round2 (fst (uniform f0_7 f0_95 g)) /\ (0.70 <= c)%Q /\ (c <= 0.95)%Q) /\
  (forall (msgs : list message) (g : rng),
     Forall
       (fun a =>
          ((0.70 <= confidence a)%Q /\ (confidence a <= 0.97)%Q) /\
          (label a = PRESSURED ->
           (exists g', confidence a = round2 (fst (uniform f0_75 f0_97 g'))) /\
           (0.75 <= confidence a)%Q) /\
          (label a <> PRESSURED ->
           (exists g', confidence a = round2 (fst (uniform f0_7 f0_95 g'))) /\
           (confidence a <= 0.95)%Q))
       (messages (fst (analyze_chat lower msgs g)))).
Proof.
  split.
  - intros text g c. subst c. rewrite analyze_message_eq. cbn [fst snd].
    split; [done|]. apply confidence_rule_range.
  - intros msgs g. rewrite messages_analyze_chat. apply analyses_Forall.
    intros msg prev g0. destruct (step_confidence msg prev g0) as [Hp Hr].
    destruct (decide (label (fst (analyze_step lower msg prev g0)) = PRESSURED)) as [E|E].
    + destruct (Hp E) as [g' Hc]. rewrite Hc.
      destruct (confidence_pressured_range g') as [H1 H2].
      split; [|split]; [|by eauto|done].
      split; [|done]. eapply Qle_trans; [|exact H1]. by apply Qle_by_bool.
    + destruct (Hr E) as [g' Hc]. rewrite Hc.
      destruct (confidence_rule_range g') as [H1 H2].
      split; [|split]; [|done|by eauto].
      split; [done|]. eapply Qle_trans; [exact H2|]. by apply Qle_by_bool.
Qed.

(** C2.  The influence score is the number of analyses whose label is not
    [neutral], divided by the number of messages or by one when there is
    none, rounded to two decimals; it lies in [[0, 1]]; without messages the
    result has no analysis and the score [0.0]. *)
Theorem influence_score_spec (msgs : list message) (g : rng) :
  let r := fst (analyze_chat lower msgs g) in
  influence_score r
    = round2 (true_div (length (filter (fun a => label a <> NEUTRAL) (messages r)))
                       (Nat.max (length msgs) 1)) /\
  ((0 <= influence_score r)%Q /\ (influence_score r <= 1)%Q) /\
  fst (analyze_chat lower [] g) = Result [] 0.00%Q.
Proof.
  intros r. subst r. rewrite analyze_chat_eq. cbn [fst messages influence_score].
  split; [done|]. split; [|done].
  apply influence_range; [|lia].
  etrans; [apply length_filter|]. rewrite analyses_length. lia.
Qed.

(** ** The generator across calls *)

Lemma same_draws_next (g g2 : rng) :
  same_draws g g2 ->
  same_draws {| stream := stream g; pos := S (pos g) |}
             {| stream := stream g2; pos := S (pos g2) |}.
Proof.
  intros H i. cbn [stream pos]. specialize (H (S i)).
  by rewrite <- !Nat.add_succ_comm in H.
Qed.

Lemma uniform_same_draws (a b : Q) (g g2 : rng) :
  same_draws g g2 ->
  fst (uniform a b g) = fst (uniform a b g2) /\
  same_draws (snd (uniform a b g)) (snd (uniform a b g2)).
Proof.
  intros H. split; [|by apply same_draws_next].
  unfold uniform, bind, ret, random. cbn [fst].
  specialize (H 0%nat). rewrite !Nat.add_0_r in H. by rewrite H.
Qed.

Lemma step_same_draws (msg : message) (prev : option analysis) (g g2 : rng) :
  same_draws g g2 ->
  fst (analyze_step lower msg prev g) = fst (analyze_step lower msg prev g2) /\
  same_draws (snd (analyze_step lower msg prev g)) (snd (analyze_step lower msg prev g2)).
Proof.
  intros H. rewrite !analyze_step_eq.
  destruct (uniform_same_draws f0_7 f0_95 g g2 H) as [H1 H2].
  destruct (uniform_same_draws f0_75 f0_97 _ _ H2) as [H3 H4].
  destruct prev as [p|]; [destruct (pressured _ _ _)|]; cbn [fst snd].
  - rewrite H3. split; [reflexivity | exact H4].
  - rewrite H1. split; [reflexivity | exact H2].
  - rewrite H1. split; [reflexivity | exact H2].
Qed.

Lemma analyses_same_draws (msgs : list message) (prev : option analysis) (g g2 : rng) :
  same_draws g g2 ->
  fst (analyses lower msgs prev g) = fst (analyses lower msgs prev g2).
Proof.
  revert prev g g2. induction msgs as [|msg msgs IH]; intros prev g g2 H; [done|].
  cbn [analyses]. destruct (step_same_draws msg prev g g2 H) as [H1 H2].
  destruct (analyze_step lower msg prev g) as [a g'].
  destruct (analyze_step lower msg prev g2) as [a2 g2']. cbn [fst snd] in *. subst a2.
  specialize (IH (Some a) g' g2' H2).
  destruct (analyses lower msgs (Some a) g') as [l ?].
  destruct (analyses lower msgs (Some a) g2') as [l2 ?]. cbn [fst] in *. by subst.
Qed.

(** One turn of the loop draws once, and once more when it overrides. *)
Lemma step_rng (msg : message) (prev : option analysis) (g : rng) :
  let out := analyze_step lower msg prev g in
  stream (snd out) = stream g /\
  pos (snd out)
  = (pos g + 1 + length (filter (fun a => label a = PRESSURED) [fst out]))%nat.
Proof.
  intros out. subst out. rewrite analyze_step_eq.
  destruct prev as [p|]; [destruct (pressured _ _ _)|]; cbn [fst snd].
  - rewrite filter_cons_True by done. cbn. split; [done | lia].
  - rewrite filter_cons_False by apply rule_label_not_pressured. cbn. split; [done | lia].
  - rewrite filter_cons_False by apply rule_label_not_pressured. cbn. split; [done | lia].
Qed.

Lemma analyses_rng (msgs : list message) (prev : option analysis) (g : rng) :
  let out := analyses lower msgs prev g in
  stream (snd out) = stream g /\
  pos (snd out)
  = (pos g + length msgs
     + length (filter (fun a => label a = PRESSURED) (fst out)))%nat.
Proof.
  revert prev g. induction msgs as [|msg msgs IH]; intros prev g.
  - cbn. split; [done | lia].
  - cbn [analyses]. destruct (step_rng msg prev g) as [H1 H2].
    destruct (analyze_step lower msg prev g) as [a g1]. cbn [fst snd] in *.
    destruct (IH (Some a) g1) as [H3 H4].
    destruct (analyses lower msgs (Some a) g1) as [l g2]. cbn [fst snd] in *.
    split; [congruence|]. rewrite H4, H2.
    change (a :: l) with ([a] ++ l). rewrite filter_app, length_app.
    cbn [length]. lia.
Qed.

(** C8, as the code has it.  The draws are the only thing a result depends
    on besides the messages, and they come from the one generator of the
    process: a call takes one draw per message and one more per overridden
    message, and leaves the generator advanced by as much for the next
    call. *)
Theorem generator_shared_by_calls (msgs : list message) (g : rng) :
  let out := analyze_chat lower msgs g in
  stream (snd out) = stream g /\
  pos (snd out)
  = (pos g + length msgs
     + length (filter (fun a => label a = PRESSURED) (messages (fst out))))%nat /\
  (forall g2, same_draws g g2 -> fst (analyze_chat lower msgs g2) = fst out).
Proof.
  intros out. subst out. rewrite analyze_chat_eq. cbn [fst snd messages].
  destruct (analyses_rng msgs None g) as [H1 H2].
  split; [done|]. split; [done|].
  intros g2 H. rewrite analyze_chat_eq. cbn [fst].
  by rewrite (analyses_same_draws msgs None g g2 H).
Qed.

End AnalyzerProperties.

(** ** The scenarios of the specification, evaluated *)

Example scenario_owe :
  map label (messages (sample_run chat_owe)) = [py "guilt-tripping"; PRESSURED] /\
  map explanation (messages (sample_run chat_owe))
  = [py "Phrase 'you owe me' detected; suggests guilt tripping.";
     pressured_explanation (py "A")] /\
  influence_score (sample_run chat_owe) = 1.00%Q.
Proof. vm_compute. auto. Qed.

Example scenario_hello :
  map speaker (messages (sample_run chat_hello)) = [UNKNOWN; UNKNOWN] /\
  map label (messages (sample_run chat_hello)) = [NEUTRAL; NEUTRAL] /\
  influence_score (sample_run chat_hello) = 0.00%Q.
Proof. vm_compute. auto. Qed.

Example scenario_blank :
  preprocess_chat (py "   " ++ [LF; LF] ++ py "  ") = [] /\
  influence_score (fst (analyze_chat ascii_lower [] sample_rng)) = 0.00%Q.
Proof. vm_compute. auto. Qed.

(** [ok] is found inside [broker]. *)
Example keyword_inside_word :
  contains_acceptance (_norm ascii_lower (py "My  BROKER called")) = true.
Proof. vm_compute. reflexivity. Qed.

(** ** The theorems at sample inputs *)

Lemma pressured_acceptance_iff_witness :
  (label (sample chat_owe 1) = PRESSURED /\
   explanation (sample chat_owe 1) = pressured_explanation (py "A")) /\
  label (sample chat_agree 1) = NEUTRAL.
Proof.
  split.
  - destruct (pressured_acceptance_iff ascii_lower (preprocess_chat chat_owe) sample_rng
                1 (Message (py "B") (py "okay fine")))
      as (a & Ha & _ & Hfire & _).
    { vm_compute. reflexivity. }
    assert (Hs : sample chat_owe 1 = a).
    { unfold sample, sample_run. by rewrite Ha. }
    rewrite Hs. apply (Hfire (sample chat_owe 0)).
    + exists (py "okay"). split.
      * apply list_elem_of_In. vm_compute. auto.
      * exists [], (py " fine"). vm_compute. reflexivity.
    + vm_compute. reflexivity.
    + vm_compute. intros E. discriminate E.
    + vm_compute. intros E. discriminate E.
  - destruct (pressured_acceptance_iff ascii_lower (preprocess_chat chat_agree) sample_rng
                1 (Message (py "B") (py "yes, fine")))
      as (a & Ha & _ & _ & Hkeep).
    { vm_compute. reflexivity. }
    assert (Hs : sample chat_agree 1 = a).
    { unfold sample, sample_run. by rewrite Ha. }
    rewrite Hs. refine (proj1 (Hkeep _ sample_rng)).
    intros [_ (p & Hp & Hlab & _)]. apply Hlab.
    assert (Hprev : previous (messages (fst (analyze_chat ascii_lower
                      (preprocess_chat chat_agree) sample_rng))) 1
                    = Some (sample chat_agree 0)) by (vm_compute; reflexivity).
    rewrite Hprev in Hp. injection Hp as <-. vm_compute. reflexivity.
Defined.

Lemma classifier_priority_witness :
  (analyze_message ascii_lower (py "After all, you're the best") sample_rng).1.1.1
  = py "guilt-tripping".
Proof.
  destruct (classifier_priority ascii_lower (py "After all, you're the best") sample_rng)
    as (_ & H & _).
  refine (proj1 (H 0%nat _ _ 0%nat (py "after all") eq_refl eq_refl _ _ _)).
  - exists [], (py ", you're the best"). vm_compute. reflexivity.
  - intros i' c' ts' t Hlt. lia.
  - intros k' t Hlt. lia.
Defined.

Lemma label_one_step_dependency_witness :
  label (sample chat_chain 2) = label (sample chat_threat 2) /\
  label (sample chat_chain 2) = PRESSURED.
Proof.
  destruct (label_one_step_dependency ascii_lower) as [H1 H2]. split.
  - apply (H1 (preprocess_chat chat_chain) (preprocess_chat chat_threat)
              sample_rng sample_rng 2%nat 2%nat); vm_compute; reflexivity.
  - apply (H2 (preprocess_chat chat_chain) sample_rng 2%nat
              (sample chat_chain 2) (sample chat_chain 1)).
    + vm_compute. reflexivity.
    + vm_compute. reflexivity.
    + vm_compute. reflexivity.
    + vm_compute. intros E. discriminate E.
    + exists (py "fine"). split.
      * apply list_elem_of_In. vm_compute. auto.
      * exists [], []. vm_compute. reflexivity.
Defined.

Lemma preprocess_chat_lines_witness :
  preprocess_chat chat_owe !! 0%nat = Some (Message (py "A") (py "you owe me")).
Proof.
  destruct (Forall2_lookup_l _ _ _ 0%nat (py "A: you owe me")
              (preprocess_chat_lines chat_owe)) as (m & Hm & Hline & _).
  { vm_compute. reflexivity. }
  rewrite Hm. f_equal. apply Hline.
  exists [], [SP]. split; [vm_compute; reflexivity|].
  split; [discriminate|]. repeat split; repeat constructor.
Defined.

Lemma confidence_ranges_witness :
  (0.75 <= confidence (sample chat_owe 1))%Q.
Proof.
  destruct (confidence_ranges ascii_lower) as [_ H].
  assert (Hin : messages (sample_run chat_owe) !! 1%nat = Some (sample chat_owe 1))
    by (vm_compute; reflexivity).
  destruct (Forall_lookup_1 _ _ _ _ (H (preprocess_chat chat_owe) sample_rng) Hin)
    as (_ & Hp & _).
  apply Hp. vm_compute. reflexivity.
Defined.

Lemma colon_only_line_unknown_witness :
  line_message (strip (py "Alice: ")) = Message UNKNOWN (py "Alice:").
Proof.
  refine (proj1 (proj2 (colon_only_line_unknown (py "Alice: ") (py "Alice: ")
                          (py "Alice") _ _ _ _))).
  - apply list_elem_of_In. vm_compute. auto.
  - vm_compute. reflexivity.
  - discriminate.
  - repeat constructor.
Defined.

Lemma analyze_chat_keeps_messages_witness :
  speaker (sample chat_owe 0) = py "A" /\ text (sample chat_owe 0) = py "you owe me".
Proof.
  assert (H1 : preprocess_chat chat_owe !! 0%nat
               = Some (Message (py "A") (py "you owe me"))) by (vm_compute; reflexivity).
  assert (H2 : messages (fst (analyze_chat ascii_lower (preprocess_chat chat_owe)
                                sample_rng)) !! 0%nat
               = Some (sample chat_owe 0)) by (vm_compute; reflexivity).
  destruct (Forall2_lookup_lr _ _ _ _ _ _
              (analyze_chat_keeps_messages ascii_lower (preprocess_chat chat_owe)
                 sample_rng) H1 H2) as (_ & _ & H).
  exact (H _ _ eq_refl).
Defined.

Lemma generator_shared_by_calls_witness :
  fst (analyze_chat ascii_lower (preprocess_chat chat_owe) sample_rng_later)
  = sample_run chat_owe /\
  pos (snd (analyze_chat ascii_lower (preprocess_chat chat_owe) sample_rng)) = 3%nat.
Proof.
  destruct (generator_shared_by_calls ascii_lower (preprocess_chat chat_owe) sample_rng)
    as (_ & Hpos & H).
  split.
  - apply H. intros i. cbn [stream pos sample_rng sample_rng_later].
    replace (3 + i - 3)%nat with (0 + i)%nat by lia. reflexivity.
  - rewrite Hpos. vm_compute. reflexivity.
Defined.

(** ** The generator is not seeded anew by a call

    C8 as the specification states it asks that a request be served with a
    generator of its own, so that it does not matter which requests came
    before.  Here the same messages are analysed twice in a row: the second
    call goes on with the generator where the first one left it and returns
    other confidences. *)
Lemma generator_not_reseeded :
  let msgs := preprocess_chat chat_hello in
  let first := analyze_chat ascii_lower msgs sample_rng in
  let second := analyze_chat ascii_lower msgs (snd first) in
  map confidence (messages (fst first)) = [0.70; 0.73]%Q /\
  map confidence (messages (fst second)) = [0.77; 0.80]%Q /\
  pos (snd first) = 2%nat /\
  fst second <> fst first.
Proof.
  vm_compute. repeat split. intros E. discriminate E.
Qed.

(** * Further properties *)

(** ** Trimming and lines *)

Lemma is_linebreak_is_space (c : char) : is_linebreak c = true -> is_space c = true.
Proof.
  unfold is_linebreak, is_space, between.
  rewrite !orb_true_iff, !andb_true_iff, !N.leb_le, !N.eqb_eq. lia.
Qed.

Lemma lstrip_nil_iff (s : pystr) : lstrip s = [] <-> all is_space s.
Proof.
  induction s as [|c s IH]; simpl; [done|].
  destruct (is_space c) eqn:E.
  - rewrite IH, Forall_cons. tauto.
  - split; [done|]. intros H. apply Forall_cons in H as [H _]. congruence.
Qed.

Lemma strip_nil_iff (s : pystr) : strip s = [] <-> all is_space s.
Proof.
  unfold strip, rstrip. destruct (lstrip_split s) as (ws & E & Hws).
  split.
  - intros H. apply (f_equal (@rev _)) in H. rewrite rev_involutive in H. simpl in H.
    apply lstrip_nil_iff, Forall_rev in H. rewrite rev_involutive in H.
    rewrite E. by apply Forall_app.
  - intros H. apply lstrip_nil_iff in H. rewrite H. done.
Qed.

Lemma lstrip_app_space (ws s : pystr) : all is_space ws -> lstrip (ws ++ s) = lstrip s.
Proof. induction 1 as [|c ws Hc _ IH]; simpl; [done|]. by rewrite Hc. Qed.

Lemma lstrip_app_keep (s ws : pystr) :
  lstrip s <> [] -> lstrip (s ++ ws) = lstrip s ++ ws.
Proof.
  induction s as [|c s IH]; simpl; [done|].
  destruct (is_space c); [exact IH | done].
Qed.

Lemma rstrip_app_space (s ws : pystr) : all is_space ws -> rstrip (s ++ ws) = rstrip s.
Proof.
  intros H. unfold rstrip. rewrite rev_app_distr, lstrip_app_space; [done|].
  by apply Forall_rev.
Qed.

(** White space around a string does not change what [strip] returns. *)
Lemma strip_padding (ws s ws' : pystr) :
  all is_space ws -> all is_space ws' -> strip (ws ++ s ++ ws') = strip s.
Proof.
  intros H H'. unfold strip. rewrite lstrip_app_space by done.
  destruct (lstrip s) as [|c r] eqn:E.
  - apply lstrip_nil_iff in E.
    assert (lstrip (s ++ ws') = []) as ->; [|done].
    apply lstrip_nil_iff. by apply Forall_app.
  - rewrite lstrip_app_keep by (by rewrite E). rewrite E. by apply rstrip_app_space.
Qed.

Lemma strip_trimmed (s : pystr) : trimmed s -> strip s = s.
Proof.
  intros (Hne & Hh & Hl). unfold strip.
  assert (lstrip s = s) as ->.
  { destruct s as [|c r]; [done|]. simpl. by rewrite (Hh c r eq_refl). }
  unfold rstrip. destruct s as [|c r _] using rev_ind; [done|].
  rewrite rev_app_distr. simpl. rewrite (Hl r c eq_refl).
  by rewrite <- (rev_involutive r) at 2.
Qed.

Lemma strip_is_trimmed (s : pystr) : strip s <> [] -> trimmed (strip s).
Proof.
  intros H. split; [done|]. split.
  - intros c r. apply strip_head.
  - intros r c. apply strip_last.
Qed.

(** The characters of the lines are those of the string that are not line
    boundaries, in the same order. *)
Lemma splitlines_from_concat (s : list char) (cur : option pystr) :
  concat (splitlines_from cur s)
  = default [] cur ++ filter (fun c => is_linebreak c = false) s.
Proof.
  revert cur. induction s as [s IH] using (induction_ltof1 _ (@length char)).
  unfold ltof in IH. intros cur. destruct s as [|c s].
  - destruct cur; simpl; by rewrite ?app_nil_r.
  - cbn [splitlines_from]. destruct (is_linebreak c) eqn:E.
    + rewrite filter_cons_False by congruence. cbn [concat]. f_equal.
      destruct (N.eqb_spec c CR) as [->|_]; [|apply (IH s); simpl; lia].
      destruct s as [|d s]; [done|].
      destruct (N.eqb_spec d LF) as [->|_].
      * rewrite (IH s) by (simpl; lia). by rewrite filter_cons_False.
      * apply (IH (d :: s)). simpl. lia.
    + rewrite filter_cons_True by done. rewrite IH by (simpl; lia). simpl.
      by rewrite <- app_assoc.
Qed.

Lemma splitlines_concat (s : list char) :
  concat (splitlines s) = filter (fun c => is_linebreak c = false) s.
Proof. apply splitlines_from_concat. Qed.

(** A string without line boundaries is its only line. *)
Lemma splitlines_from_one (s : pystr) (cur : option pystr) :
  none is_linebreak s -> s <> [] ->
  splitlines_from cur s = [default [] cur ++ s].
Proof.
  intros H. revert cur. induction H as [|c s Hc H IH]; intros cur Hne; [done|].
  simpl. rewrite Hc. destruct s as [|d s].
  - done.
  - rewrite IH by done. simpl. by rewrite <- app_assoc.
Qed.

(** ** More on the segmenter *)

Lemma preprocess_lines_cons (raw : pystr) (lines : list pystr) :
  preprocess_lines (raw :: lines) [] = preprocess_lines [raw] [] ++ preprocess_lines lines [].
Proof.
  simpl. destruct (strip raw) as [|c line]; [done|].
  by rewrite (preprocess_lines_eq lines [_]), (preprocess_lines_eq lines []).
Qed.

Lemma preprocess_lines_blank (raw : pystr) :
  all is_space raw -> preprocess_lines [raw] [] = [].
Proof. intros H. apply strip_nil_iff in H. simpl. by rewrite H. Qed.

Lemma preprocess_lines_nil_iff (lines : list pystr) :
  preprocess_lines lines [] = [] <-> Forall (all is_space) lines.
Proof.
  induction lines as [|raw lines IH]; [done|].
  rewrite preprocess_lines_cons, Forall_cons, <- IH. split.
  - intros H. apply app_eq_nil in H as [H1 H2]. split; [|done].
    apply strip_nil_iff. simpl in H1. by destruct (strip raw).
  - intros [H1 H2]. by rewrite preprocess_lines_blank, H2.
Qed.

Lemma all_space_nonbreak (s : list char) :
  all is_space (filter (fun c => is_linebreak c = false) s) <-> all is_space s.
Proof.
  induction s as [|c s IH]; [done|].
  rewrite filter_cons, Forall_cons, <- IH.
  destruct (decide (is_linebreak c = false)) as [E|E].
  - by rewrite Forall_cons.
  - apply not_false_is_true, is_linebreak_is_space in E. tauto.
Qed.

(** Cutting a chat at a line feed. *)
Lemma preprocess_lines_linefeed (s1 s2 : pystr) (cur : option pystr) :
  preprocess_lines (splitlines_from cur (s1 ++ LF :: s2)) []
  = preprocess_lines (splitlines_from cur s1) [] ++ preprocess_lines (splitlines s2) [].
Proof.
  revert cur. induction s1 as [s1 IH] using (induction_ltof1 _ (@length char)).
  unfold ltof in IH. intros cur. destruct s1 as [|c s1].
  - change ([] ++ LF :: s2) with (LF :: s2). cbn [splitlines_from].
    change (is_linebreak LF) with true. change (LF =? CR) with false. cbv iota.
    rewrite preprocess_lines_cons. f_equal.
    destruct cur as [l|]; [done|]. by apply preprocess_lines_blank.
  - change ((c :: s1) ++ LF :: s2) with (c :: (s1 ++ LF :: s2)). cbn [splitlines_from].
    destruct (is_linebreak c) eqn:E; [|apply IH; simpl; lia].
    rewrite !(preprocess_lines_cons (default [] cur) (if c =? CR then _ else _)).
    rewrite <- app_assoc. f_equal.
    destruct (c =? CR); [|apply IH; simpl; lia].
    destruct s1 as [|d s1].
    + change ([] ++ LF :: s2) with (LF :: s2). change (LF =? LF) with true. done.
    + change ((d :: s1) ++ LF :: s2) with (d :: (s1 ++ LF :: s2)). cbv beta iota.
      destruct (d =? LF).
      * apply IH. simpl. lia.
      * apply (IH (d :: s1)). simpl. lia.
Qed.

Lemma is_word_not_break (c : char) : is_word c = true -> is_linebreak c = false.
Proof.
  intros H. apply is_word_not_space in H. apply not_true_is_false. intros H'.
  apply is_linebreak_is_space in H'. congruence.
Qed.

(** One line in the format [speaker: text]. *)
Lemma preprocess_chat_line (spk txt : pystr) :
  well_formed spk txt ->
  preprocess_lines (splitlines (spk ++ py ": " ++ txt)) [] = [Message spk txt].
Proof.
  intros (Hne & Hspk & (Htne & Hhead & Hlast) & Hbr).
  set (line := spk ++ py ": " ++ txt).
  assert (Hline : none is_linebreak line).
  { apply Forall_app. split; [|by repeat constructor].
    eapply Forall_impl; [exact Hspk|]. apply is_word_not_break. }
  assert (Hnil : line <> []) by (subst line; by destruct spk).
  unfold splitlines. rewrite splitlines_from_one by done. simpl.
  assert (Htrim : trimmed line).
  { split; [done|]. split.
    - intros c r E. subst line. destruct Hspk as [|w spk Hw _]; [done|].
      injection E as <- _. by apply is_word_not_space.
    - intros r c E. subst line. destruct txt as [|t txt _] using rev_ind; [done|].
      rewrite !app_assoc in E. apply app_inj_tail in E as [_ <-].
      by apply (Hlast txt t). }
  rewrite (strip_trimmed _ Htrim). destruct line as [|c0 l0] eqn:El; [done|].
  rewrite <- El. unfold line_message.
  rewrite (speaker_pattern_complete line spk txt); [done| |].
  - exists [], [SP]. repeat split; try done.
    + by repeat constructor.
    + destruct txt as [|t txt]; [done|]. by apply (Hhead t txt).
  - eapply Forall_impl; [exact Hbr|]. apply is_dot_not_break.
Qed.

Lemma preprocess_chat_nil (chat_text : pystr) :
  preprocess_chat chat_text = [] <-> all is_space chat_text.
Proof.
  unfold preprocess_chat. rewrite preprocess_lines_nil_iff.
  rewrite <- Forall_concat, splitlines_concat. apply all_space_nonbreak.
Qed.

(** X1.  [preprocess_chat] returns no message exactly for the inputs that
    consist of white space only, the empty string included. *)
Theorem preprocess_chat_empty_iff (chat_text : pystr) :
  preprocess_chat chat_text = [] <-> all is_space chat_text.
Proof. apply preprocess_chat_nil. Qed.

(** X2.  The messages of two pieces of a chat joined by a line feed are the
    messages of the first piece followed by those of the second. *)
Theorem preprocess_chat_linefeed (s1 s2 : pystr) :
  preprocess_chat (s1 ++ LF :: s2) = preprocess_chat s1 ++ preprocess_chat s2.
Proof. apply preprocess_lines_linefeed. Qed.

Lemma preprocess_chat_messages (chat_text : pystr) :
  Forall (fun m => exists spk txt, m = Message spk txt /\ well_formed spk txt)
    (preprocess_chat chat_text).
Proof.
  rewrite preprocess_chat_eq. apply Forall_fmap, Forall_forall. intros line Hin.
  apply list_elem_of_filter in Hin as [Hne Hin].
  apply list_elem_of_fmap in Hin as (raw & -> & Hraw).
  pose proof (strip_is_trimmed raw Hne) as Htrim.
  assert (Hbr : none is_linebreak (strip raw)).
  { apply strip_none. pose proof (splitlines_none chat_text) as H.
    rewrite Forall_forall in H. by apply H. }
  simpl. unfold line_message.
  destruct (speaker_pattern (strip raw)) as [[g1 g2]|] eqn:E.
  - destruct Htrim as (_ & Hhead & Hlast).
    apply speaker_pattern_trimmed in E; [|done..].
    destruct E as (ws1 & ws2 & E & Hg1 & Hword & _ & _ & Hrest).
    exists g1, g2. split; [done|]. split; [done|]. split; [done|]. split.
    + split; [by destruct g2|]. split.
      * intros c r ->. exact Hrest.
      * intros r c ->. apply (Hlast (g1 ++ ws1 ++ COLON :: ws2 ++ r) c).
        rewrite E, <- !app_assoc. simpl. by rewrite <- app_assoc.
    + rewrite E in Hbr. rewrite !Forall_app, Forall_cons, !Forall_app in Hbr. tauto.
  - exists UNKNOWN, (strip raw). split; [done|]. split; [done|].
    split; [by repeat constructor|]. done.
Qed.

(** X3.  Every message of [preprocess_chat] has the two keys [speaker] and
    [text]; the speaker is a non-empty string of letters, digits and
    underscores, and the text is not empty, does not start or end with white
    space and holds no line boundary. *)
Theorem preprocess_chat_well_formed (chat_text : pystr) :
  Forall (fun m => exists spk txt, m = Message spk txt /\ well_formed spk txt)
    (preprocess_chat chat_text).
Proof. apply preprocess_chat_messages. Qed.

(** X4.  Writing messages out as lines [speaker: text] and segmenting the
    result gives the messages back, for speakers and texts of the form that
    [preprocess_chat] itself returns. *)
Theorem preprocess_chat_transcript (msgs : list (pystr * pystr)) :
  Forall (fun p => well_formed p.1 p.2) msgs ->
  preprocess_chat (transcript msgs) = (fun p => Message p.1 p.2) <$> msgs.
Proof.
  induction 1 as [|[spk txt] msgs Hwf _ IH]; [done|].
  cbn [transcript fmap list_fmap].
  replace (spk ++ py ": " ++ txt ++ LF :: transcript msgs)
    with ((spk ++ py ": " ++ txt) ++ LF :: transcript msgs)
    by (by rewrite <- !app_assoc).
  unfold preprocess_chat, splitlines in *. rewrite preprocess_lines_linefeed.
  fold (splitlines (spk ++ py ": " ++ txt)).
  rewrite (preprocess_chat_line spk txt Hwf). unfold splitlines. by rewrite IH.
Qed.

(** ** More on the analyzer *)

Section AnalyzerFurther.

Context (lower : pystr -> pystr).

Lemma first_trigger_Some (n : pystr) (ts : list pystr) (trig : pystr) :
  first_trigger n ts = Some trig ->
  exists k, ts !! k = Some trig /\ occurs trig n /\
            forall k' t, (k' < k)%nat -> ts !! k' = Some t -> ~ occurs t n.
Proof.
  induction ts as [|t0 ts IH]; simpl; [done|].
  destruct (contains t0 n) eqn:E.
  - intros [= ->]. exists 0%nat. split; [done|]. split; [by apply contains_occurs|].
    intros k' t Hlt. lia.
  - intros H. destruct (IH H) as (k & Hk & Hocc & Hbefore).
    exists (S k). split; [done|]. split; [done|].
    intros [|k'] t Hlt Ht.
    + injection Ht as <-. rewrite <- contains_occurs. congruence.
    + apply (Hbefore k' t); [lia | done].
Qed.

Lemma first_trigger_None (n : pystr) (ts : list pystr) :
  first_trigger n ts = None -> forall t, t ∈ ts -> ~ occurs t n.
Proof.
  induction ts as [|t0 ts IH]; simpl; intros H t Ht.
  - by apply elem_of_nil in Ht.
  - destruct (contains t0 n) eqn:E; [done|].
    apply elem_of_cons in Ht as [->|Ht]; [|by apply IH].
    rewrite <- contains_occurs. congruence.
Qed.

Lemma first_rule_Some (n : pystr) (rules : list (pystr * list pystr)) (l trig : pystr) :
  first_rule n rules = Some (l, trig) ->
  exists i ts, rules !! i = Some (l, ts) /\ first_trigger n ts = Some trig /\
    forall i' c' ts' t, (i' < i)%nat -> rules !! i' = Some (c', ts') -> t ∈ ts' ->
      ~ occurs t n.
Proof.
  induction rules as [|[c0 ts0] rules IH]; simpl; [done|].
  destruct (first_trigger n ts0) as [t0|] eqn:E.
  - intros [= -> ->]. exists 0%nat, ts0. split; [done|]. split; [done|].
    intros i' c' ts' t Hlt. lia.
  - intros H. destruct (IH H) as (i & ts & Hi & Hts & Hbefore).
    exists (S i), ts. split; [done|]. split; [done|].
    intros [|i'] c' ts' t Hlt Hr Ht.
    + injection Hr as <- <-. by apply (first_trigger_None n ts0 E).
    + apply (Hbefore i' c' ts' t); [lia | done | done].
Qed.

Lemma first_rule_None (n : pystr) (rules : list (pystr * list pystr)) :
  first_rule n rules = None ->
  forall c ts t, (c, ts) ∈ rules -> t ∈ ts -> ~ occurs t n.
Proof.
  induction rules as [|[c0 ts0] rules IH]; simpl; intros H c ts t Hin Ht.
  - by apply elem_of_nil in Hin.
  - destruct (first_trigger n ts0) as [t0|] eqn:E; [done|].
    apply elem_of_cons in Hin as [[= -> ->]|Hin].
    + by apply (first_trigger_None n ts0 E).
    + by apply (IH H c ts t).
Qed.

Lemma rule_names :
  forall l, l ∈ MANIPULATION_RULES.*1 ->
    l ∈ [py "guilt-tripping"; py "flattery"; py "fear-pressure"] /\ l <> NEUTRAL.
Proof.
  intros l H. split; [exact H|]. intros ->. apply list_elem_of_In in H.
  vm_compute in H. destruct H as [H|[H|[H|[]]]]; discriminate H.
Qed.

(** X5.  [analyze_message] answers one of four labels; it names a category
    only when one of the triggers of that category occurs in the normalized
    text and none of an earlier category does, and its explanation then
    quotes the first such trigger of the list; it answers [neutral] only
    when no trigger occurs at all. *)
Theorem analyze_message_sound (text : pystr) (g : rng) :
  let n := _norm lower text in
  let out := (analyze_message lower text g).1 in
  out.1.1 ∈ [NEUTRAL; py "guilt-tripping"; py "flattery"; py "fear-pressure"] /\
  (out.1.1 <> NEUTRAL ->
   exists i ts k trig,
     MANIPULATION_RULES !! i = Some (out.1.1, ts) /\ ts !! k = Some trig /\
     occurs trig n /\ out.2 = rule_explanation trig out.1.1 /\
     (forall i' c' ts' t, (i' < i)%nat -> MANIPULATION_RULES !! i' = Some (c', ts') ->
        t ∈ ts' -> ~ occurs t n) /\
     (forall k' t, (k' < k)%nat -> ts !! k' = Some t -> ~ occurs t n)) /\
  (out.1.1 = NEUTRAL ->
   trigger_free lower text /\ out.2 = py "No manipulation keyword detected.").
Proof.
  intros n out. subst out. rewrite analyze_message_eq. cbn [fst snd].
  unfold rule_label, rule_text, trigger_free. fold n.
  destruct (first_rule n MANIPULATION_RULES) as [[l trig]|] eqn:E.
  - pose proof (first_rule_in n _ l trig E) as Hin.
    destruct (rule_names l Hin) as [Hl Hneq].
    split; [by right|]. split; [|done].
    intros _. destruct (first_rule_Some n _ l trig E) as (i & ts & Hi & Hts & Hcats).
    destruct (first_trigger_Some n ts trig Hts) as (k & Hk & Hocc & Htrigs).
    exists i, ts, k, trig. auto 10.
  - split; [left|]. split; [done|]. intros _. split; [|done].
    by apply first_rule_None.
Qed.

(** White space around a text changes nothing for [analyze_message]. *)
Lemma norm_padding (ws text ws' : pystr) :
  all is_space ws -> all is_space ws' ->
  _norm lower (ws ++ text ++ ws') = _norm lower text.
Proof. intros H H'. unfold _norm. by rewrite strip_padding. Qed.

(** X6.  White space before and after a text does not change its
    normalized form nor anything [analyze_message] returns for it. *)
Theorem analyze_message_padding (ws text ws' : pystr) (g : rng) :
  all is_space ws -> all is_space ws' ->
  _norm lower (ws ++ text ++ ws') = _norm lower text /\
  analyze_message lower (ws ++ text ++ ws') g = analyze_message lower text g.
Proof.
  intros H H'. split; [by apply norm_padding|].
  unfold analyze_message. by rewrite norm_padding.
Qed.

Lemma sub_spaces_shape (b : bool) (s : pystr) :
  (forall c, c ∈ sub_spaces b s -> is_space c = true -> c = SP) /\
  (forall i, sub_spaces b s !! i = Some SP -> sub_spaces b s !! S i <> Some SP) /\
  (b = true -> sub_spaces b s !! 0%nat <> Some SP).
Proof.
  revert b. induction s as [|c s IH]; intros b.
  - simpl. split; [intros c H; by apply elem_of_nil in H|]. split; done.
  - cbn [sub_spaces]. destruct (is_space c) eqn:E.
    + destruct (IH true) as (I1 & I2 & I3). destruct b; [done|].
      split; [|split; [|done]].
      * intros c' [->|H]%elem_of_cons; [done | by apply I1].
      * intros [|i]; simpl; [intros _; by apply I3 | apply I2].
    + destruct (IH false) as (I1 & I2 & _).
      assert (c <> SP) by (intros ->; discriminate E).
      split; [|split].
      * intros c' [->|H']%elem_of_cons; [congruence | by apply I1].
      * intros [|i]; simpl; [congruence | apply I2].
      * simpl. congruence.
Qed.

(** X7.  In a normalized text the only white space is the space character
    and no two spaces follow each other, whatever the case mapping. *)
Theorem norm_single_spaces (text : pystr) :
  (forall c, c ∈ _norm lower text -> is_space c = true -> c = SP) /\
  ~ occurs [SP; SP] (_norm lower text).
Proof.
  unfold _norm. destruct (sub_spaces_shape false (lower (strip text))) as (H1 & H2 & _).
  split; [exact H1|]. intros (pre & post & E).
  unfold pystr in *. apply (H2 (length pre)); rewrite E.
  - by rewrite lookup_app_r, Nat.sub_diag by lia.
  - rewrite lookup_app_r by lia. by replace (S (length pre) - length pre)%nat with 1%nat by lia.
Qed.

End AnalyzerFurther.

(** ** More on [analyze_chat] *)

Lemma round2_true_div_zero (t : nat) : round2 (true_div 0 t) = 0.00%Q.
Proof.
  unfold true_div, binary64.
  assert (Qeq_bool (inject_Z (Z.of_nat 0) / inject_Z (Z.of_nat t)) 0 = true) as ->.
  { apply Qeq_bool_iff. unfold Qdiv. by rewrite Qmult_0_l. }
  reflexivity.
Qed.

Lemma round2_true_div_same (n : nat) : (1 <= n)%nat -> round2 (true_div n n) = 1.00%Q.
Proof.
  intros Hn. unfold true_div.
  set (q := (inject_Z (Z.of_nat n) / inject_Z (Z.of_nat n))%Q).
  assert (Hq : (q == 1)%Q).
  { subst q. field. intros H. unfold Qeq in H. simpl in H. lia. }
  clearbody q. destruct (binary64_pos q) as [H1 H2]; [lra|].
  unfold eps in H1, H2.
  destruct (round2_range (binary64 q) 100 100) as [R1 R2].
  - cbv [inject_Z]. lra.
  - cbv [inject_Z]. lra.
  - unfold round2 in *. unfold Qle in R1, R2. cbn [Qnum Qden] in R1, R2.
    f_equal. lia.
Qed.

Section ChatFurther.

Context (lower : pystr -> pystr).

Lemma rule_label_in (txt : pystr) :
  rule_label lower txt ∈ [NEUTRAL; py "guilt-tripping"; py "flattery"; py "fear-pressure"].
Proof.
  unfold rule_label. destruct (first_rule _ _) as [[l t]|] eqn:E; [|left].
  right. apply first_rule_in in E. by apply rule_names.
Qed.

Lemma rule_text_nonempty (txt : pystr) : rule_text lower txt <> [].
Proof. unfold rule_text. by destruct (first_rule _ _) as [[l t]|]. Qed.

Lemma step_label_in (msg : message) (prev : option analysis) (g : rng) :
  label (fst (analyze_step lower msg prev g)) ∈ LABELS /\
  explanation (fst (analyze_step lower msg prev g)) <> [].
Proof.
  rewrite analyze_step_eq.
  assert (Hin : forall l, l ∈ [NEUTRAL; py "guilt-tripping"; py "flattery";
                               py "fear-pressure"] -> l ∈ LABELS).
  { intros l H. unfold LABELS. rewrite !elem_of_cons in *. tauto. }
  destruct prev as [p|]; [destruct (pressured _ _ _)|]; cbn [fst label explanation].
  - split; [|done]. unfold LABELS. rewrite !elem_of_cons. tauto.
  - split; [apply Hin, rule_label_in | apply rule_text_nonempty].
  - split; [apply Hin, rule_label_in | apply rule_text_nonempty].
Qed.

(** X8.  Every label of a result is one of the five labels and every
    explanation is a non-empty string. *)
Theorem analyze_chat_labels (msgs : list message) (g : rng) :
  Forall (fun a => label a ∈ LABELS /\ explanation a <> [])
    (messages (fst (analyze_chat lower msgs g))).
Proof.
  rewrite messages_analyze_chat. apply analyses_Forall. intros. apply step_label_in.
Qed.

Lemma pressured_same_speaker (ca : bool) (p : analysis) :
  pressured ca (Some p) (speaker p) = false.
Proof.
  unfold pressured. assert (neq (speaker p) (speaker p) = false) as ->.
  { by apply neq_false. }
  by rewrite !andb_false_r.
Qed.

Lemma pressured_after_neutral (ca : bool) (p : analysis) (spk : pystr) :
  label p = NEUTRAL -> pressured ca (Some p) spk = false.
Proof.
  intros H. unfold pressured. assert (neq (label p) NEUTRAL = false) as ->.
  { by apply neq_false. }
  by rewrite andb_false_r.
Qed.

Lemma step_not_pressured (msg : message) (prev : option analysis) (g : rng) :
  (forall p, prev = Some p ->
     pressured (contains_acceptance (_norm lower (get_text msg))) prev (get_speaker msg)
     = false) ->
  let a := fst (analyze_step lower msg prev g) in
  speaker a = get_speaker msg /\ text a = get_text msg /\
  label a = rule_label lower (get_text msg) /\
  explanation a = rule_text lower (get_text msg).
Proof.
  intros H a. subst a. rewrite analyze_step_eq. fold (get_speaker msg) (get_text msg).
  destruct prev as [p|]; [|done]. by rewrite (H p eq_refl).
Qed.

Lemma analyses_same_speaker (spk : pystr) (msgs : list message)
    (prev : option analysis) (g : rng) :
  Forall (fun msg => get_speaker msg = spk) msgs ->
  (forall p, prev = Some p -> speaker p = spk) ->
  Forall (fun a => label a = rule_label lower (text a) /\
                   explanation a = rule_text lower (text a))
    (fst (analyses lower msgs prev g)).
Proof.
  intros H. revert prev g. induction H as [|msg msgs Hmsg _ IH]; intros prev g Hprev.
  - constructor.
  - cbn [analyses].
    destruct (step_not_pressured msg prev g) as (Hs & Ht & Hl & He).
    { intros p ->. rewrite Hmsg, <- (Hprev p eq_refl). apply pressured_same_speaker. }
    destruct (analyze_step lower msg prev g) as [a g1]. cbn [fst] in *.
    specialize (IH (Some a) g1).
    destruct (analyses lower msgs (Some a) g1) as [l g2]. cbn [fst] in *.
    constructor.
    + by rewrite Ht.
    + apply IH. intros p [= <-]. by rewrite Hs.
Qed.

(** X9.  When all messages have the same speaker, the speaker [Unknown] of
    lines without a name included, no message is labelled [pressured
    acceptance]: every label and explanation is the one of
    [analyze_message]. *)
Theorem same_speaker_never_pressured (spk : pystr) (msgs : list message) (g : rng) :
  Forall (fun msg => get_speaker msg = spk) msgs ->
  Forall
    (fun a =>
       label a <> PRESSURED /\
       forall g', label a = (analyze_message lower (text a) g').1.1.1 /\
                  explanation a = (analyze_message lower (text a) g').1.2)
    (messages (fst (analyze_chat lower msgs g))).
Proof.
  intros H. rewrite messages_analyze_chat.
  eapply Forall_impl; [apply (analyses_same_speaker spk); [done | done]|].
  intros a [Hl He]. split.
  - rewrite Hl. apply rule_label_not_pressured.
  - intros g'. by rewrite analyze_message_eq.
Qed.

Lemma analyses_trigger_free (msgs : list message) (prev : option analysis) (g : rng) :
  Forall (fun msg => trigger_free lower (get_text msg)) msgs ->
  (forall p, prev = Some p -> label p = NEUTRAL) ->
  Forall (fun a => label a = NEUTRAL) (fst (analyses lower msgs prev g)).
Proof.
  intros H. revert prev g. induction H as [|msg msgs Hmsg _ IH]; intros prev g Hprev.
  - constructor.
  - cbn [analyses].
    destruct (step_not_pressured msg prev g) as (Hs & Ht & Hl & He).
    { intros p ->. apply pressured_after_neutral. by apply Hprev. }
    assert (Hn : rule_label lower (get_text msg) = NEUTRAL).
    { unfold rule_label. by rewrite first_rule_none. }
    destruct (analyze_step lower msg prev g) as [a g1]. cbn [fst] in *.
    specialize (IH (Some a) g1).
    destruct (analyses lower msgs (Some a) g1) as [l g2]. cbn [fst] in *.
    constructor; [congruence|]. apply IH. intros p [= <-]. congruence.
Qed.

Lemma score_all_neutral (msgs : list message) (g : rng) :
  Forall (fun a => label a = NEUTRAL) (messages (fst (analyze_chat lower msgs g))) ->
  influence_score (fst (analyze_chat lower msgs g)) = 0.00%Q.
Proof.
  rewrite analyze_chat_eq. cbn [fst messages influence_score]. intros H.
  assert (filter (fun a => label a <> NEUTRAL) (fst (analyses lower msgs None g)) = [])
    as ->; [|apply round2_true_div_zero].
  induction H as [|a l Ha _ IH]; [done|]. by rewrite filter_cons_False by auto.
Qed.

(** X10.  Without any trigger phrase in its messages a chat is neutral
    throughout and scores [0.0], whatever its speakers and however many
    acceptance keywords it holds. *)
Theorem trigger_free_chat_neutral (msgs : list message) (g : rng) :
  Forall (fun msg => trigger_free lower (get_text msg)) msgs ->
  Forall (fun a => label a = NEUTRAL) (messages (fst (analyze_chat lower msgs g))) /\
  influence_score (fst (analyze_chat lower msgs g)) = 0.00%Q.
Proof.
  intros H.
  assert (Hall : Forall (fun a => label a = NEUTRAL)
                   (messages (fst (analyze_chat lower msgs g)))).
  { rewrite messages_analyze_chat. by apply analyses_trigger_free. }
  split; [done|]. by apply score_all_neutral.
Qed.

(** X11.  The score is [0.0] when every label is [neutral] and [1.0] when
    there is a message and no label is [neutral]. *)
Theorem influence_score_extremes (msgs : list message) (g : rng) :
  let r := fst (analyze_chat lower msgs g) in
  (Forall (fun a => label a = NEUTRAL) (messages r) -> influence_score r = 0.00%Q) /\
  (msgs <> [] -> Forall (fun a => label a <> NEUTRAL) (messages r) ->
   influence_score r = 1.00%Q).
Proof.
  intros r. subst r. split; [apply score_all_neutral|].
  rewrite analyze_chat_eq. cbn [fst messages influence_score]. intros Hne H.
  assert (filter (fun a => label a <> NEUTRAL) (fst (analyses lower msgs None g))
          = fst (analyses lower msgs None g)) as ->.
  { induction H as [|a l Ha _ IH]; [done|]. rewrite filter_cons_True by done.
    by rewrite IH. }
  rewrite analyses_length.
  assert (Nat.max (length msgs) 1 = length msgs) as -> by (destruct msgs; simpl; [done|lia]).
  apply round2_true_div_same. destruct msgs; simpl; [done|lia].
Qed.

Lemma analyses_app (m1 m2 : list message) (prev : option analysis) (g : rng) :
  exists rest,
    fst (analyses lower (m1 ++ m2) prev g) = fst (analyses lower m1 prev g) ++ rest /\
    length rest = length m2.
Proof.
  revert prev g. induction m1 as [|msg m1 IH]; intros prev g.
  - exists (fst (analyses lower m2 prev g)). split; [done|]. apply analyses_length.
  - cbn [app analyses]. destruct (analyze_step lower msg prev g) as [a g1].
    destruct (IH (Some a) g1) as (rest & E & Hlen).
    destruct (analyses lower (m1 ++ m2) (Some a) g1) as [l g2].
    destruct (analyses lower m1 (Some a) g1) as [l1 g3]. cbn [fst] in *.
    exists rest. by rewrite E.
Qed.

(** X12.  The analyses of the first messages of a chat do not depend on the
    messages that follow: with the same generator state, the result for a
    chat starts with the analyses of any of its prefixes. *)
Theorem analyze_chat_prefix (m1 m2 : list message) (g : rng) :
  exists rest,
    messages (fst (analyze_chat lower (m1 ++ m2) g))
    = messages (fst (analyze_chat lower m1 g)) ++ rest /\
    length rest = length m2.
Proof. rewrite !messages_analyze_chat. apply analyses_app. Qed.

End ChatFurther.

(** ** The handler of [POST /analyze] *)

Section EndpointProperties.

Context (lower : pystr -> pystr).

Lemma convert_eq (ms : list analysis) (acc : list models.MessageAnalysis) :
  convert ms acc = acc ++ (to_model <$> ms).
Proof.
  revert acc. induction ms as [|m ms IH]; intros acc; simpl.
  - by rewrite app_nil_r.
  - by rewrite IH, <- app_assoc.
Qed.

Lemma reject_test (s : pystr) :
  falsy s || falsy (strip s) = true <-> all is_space s.
Proof.
  rewrite <- strip_nil_iff. destruct s as [|c s]; [done|].
  simpl. by destruct (strip (c :: s)).
Qed.

Lemma analyses_fields (msgs : list message) (prev : option analysis) (g : rng) :
  Forall2
    (fun msg a => speaker a = get_speaker msg /\ text a = get_text msg /\
                  label a ∈ LABELS /\ explanation a <> [])
    msgs (fst (analyses lower msgs prev g)).
Proof.
  apply Forall2_same_length_lookup_2; [by rewrite analyses_length|].
  intros i msg a Hmsg Ha.
  apply analyses_lookup in Ha as (msg' & gi & Hmsg' & ->).
  assert (msg' = msg) as -> by congruence.
  set (p := match i with O => prev | S j => fst (analyses lower msgs prev g) !! j end).
  destruct (step_fields lower msg p gi) as (Hs & Ht & _).
  destruct (step_label_in lower msg p gi) as [Hl He]. done.
Qed.

Lemma count_to_model (l : list analysis) :
  length (filter (fun mo => models.label mo <> NEUTRAL) (to_model <$> l))
  = length (filter (fun a => label a <> NEUTRAL) l).
Proof.
  induction l as [|a l IH]; [done|].
  rewrite fmap_cons, !filter_cons. cbn [to_model models.label].
  destruct (decide (label a <> NEUTRAL)); simpl; by rewrite IH.
Qed.

(** X14.  The handler answers 400 exactly when the chat is empty or white
    space only, and then takes no draw from the generator; any other chat is
    accepted and leaves the generator as [analyze_chat] does. *)
Theorem analyze_rejects_blank (chat_input : models.ChatInput) (g : rng) :
  (all is_space (models.chat chat_input) ->
   analyze lower chat_input g
   = (inl {| status_code := 400; detail := py "Empty chat text provided." |}, g)) /\
  (~ all is_space (models.chat chat_input) ->
   exists out,
     analyze lower chat_input g
     = (inr out,
        snd (analyze_chat lower (preprocess_chat (models.chat chat_input)) g))).
Proof.
  unfold analyze. split; intros H.
  - apply reject_test in H. by rewrite H.
  - destruct (falsy _ || falsy _) eqn:E; [by apply reject_test in E|].
    unfold bind, ret.
    destruct (analyze_chat lower (preprocess_chat (models.chat chat_input)) g)
      as [r g']. eauto.
Qed.

(** X15.  An accepted request has at least one message in its response, one
    per message of the segmenter and in the same order, with the speaker and
    the text the segmenter found, one of the five labels and an explanation
    that is present and not empty; its score is the share of labels other
    than [neutral] among these messages, rounded to two decimals. *)
Theorem analyze_response (chat_input : models.ChatInput) (g : rng)
    (out : models.ChatOutput) :
  fst (analyze lower chat_input g) = inr out ->
  models.messages out <> [] /\
  Forall2
    (fun msg mo =>
       exists spk txt,
         msg = Message spk txt /\ well_formed spk txt /\
         models.speaker mo = spk /\ models.text mo = txt /\
         models.label mo ∈ LABELS /\
         exists e, models.explanation mo = Some e /\ e <> [])
    (preprocess_chat (models.chat chat_input)) (models.messages out) /\
  models.influence_score out
  = round2 (true_div
      (length (filter (fun mo => models.label mo <> NEUTRAL) (models.messages out)))
      (length (models.messages out))).
Proof.
  unfold analyze. destruct (falsy _ || falsy _) eqn:E; [done|].
  assert (Hne : preprocess_chat (models.chat chat_input) <> []).
  { rewrite preprocess_chat_nil, <- reject_test. congruence. }
  set (msgs := preprocess_chat (models.chat chat_input)) in *.
  unfold bind, ret. rewrite analyze_chat_eq. cbn [fst snd messages influence_score].
  intros [= <-]. cbn [models.messages models.influence_score].
  rewrite convert_eq. cbn [app].
  pose proof (analyses_length lower msgs None g) as Hlen.
  split; [|split].
  - intros H. apply (f_equal length) in H. rewrite length_fmap, Hlen in H.
    destruct msgs; [done | discriminate].
  - apply Forall2_fmap_r.
    pose proof (preprocess_chat_messages (models.chat chat_input)) as Hwf.
    fold msgs in Hwf.
    apply Forall2_same_length_lookup_2; [by rewrite Hlen|].
    intros i msg a Hmsg Ha.
    destruct (Forall_lookup_1 _ _ _ _ Hwf Hmsg) as (spk & txt & -> & Hw).
    destruct (Forall2_lookup_lr _ _ _ _ _ _ (analyses_fields msgs None g) Hmsg Ha)
      as (Hs & Ht & Hl & He).
    exists spk, txt. cbn [to_model models.speaker models.text models.label
                            models.explanation].
    split; [done|]. split; [done|]. split; [by rewrite Hs|]. split; [by rewrite Ht|].
    split; [done|]. eauto.
  - rewrite count_to_model, length_fmap, Hlen. do 2 f_equal.
    destruct msgs; simpl; [done | lia].
Qed.

End EndpointProperties.

(** ** Missing keys *)

Section MissingKeys.

Context (lower : pystr -> pystr).

(** X13.  A message without the key [text] is analysed as the empty text:
    with a case mapping that maps the empty string to itself it is neutral
    and never overridden; without the key [speaker] its speaker is
    [Unknown]. *)
Theorem missing_text_neutral (msgs : list message) (g : rng) (i : nat)
    (msg : message) (a : analysis) :
  lower [] = [] ->
  msgs !! i = Some msg -> msg !! "text"%string = None ->
  messages (fst (analyze_chat lower msgs g)) !! i = Some a ->
  text a = [] /\ label a = NEUTRAL /\
  explanation a = py "No manipulation keyword detected." /\
  (msg !! "speaker"%string = None -> speaker a = UNKNOWN).
Proof.
  intros Hlow Hmsg Htext Ha.
  assert (Hn : _norm lower [] = []).
  { unfold _norm. change (strip []) with ([] : pystr). by rewrite Hlow. }
  destruct (analyze_chat_lookup lower msgs g i a Ha) as (msg' & gi & Hmsg' & E).
  assert (msg' = msg) as -> by congruence.
  set (prev := previous (messages (fst (analyze_chat lower msgs g))) i) in *.
  destruct (step_fields lower msg prev gi) as (Hs & Ht & Hl & He & _).
  rewrite <- E in Hs, Ht, Hl, He. unfold pystr in *. rewrite Htext in Ht. simpl in Ht.
  rewrite Ht in Hl, He.
  assert (Hp : pressured (contains_acceptance (_norm lower [])) prev (speaker a) = false).
  { by rewrite Hn. }
  rewrite Hp in Hl. specialize (He Hp).
  unfold rule_label in Hl. unfold rule_text in He. rewrite Hn in Hl, He.
  split; [done|]. split; [done|]. split; [done|].
  intros Hspk. rewrite Hs. unfold pystr in *. by rewrite Hspk.
Qed.

End MissingKeys.

(** ** Checks by computation *)

Lemma is_trimmed_true (s : pystr) : is_trimmed s = true -> trimmed s.
Proof.
  destruct s as [|c s]; [done|]. unfold is_trimmed.
  rewrite andb_true_iff, !negb_true_iff. intros [H1 H2].
  split; [done|]. split.
  - by intros ? ? [= <- _].
  - intros r d E. rewrite E in H2. by rewrite last_last in H2.
Qed.

Lemma is_well_formed_true (spk txt : pystr) :
  is_well_formed spk txt = true -> well_formed spk txt.
Proof.
  unfold is_well_formed. rewrite !andb_true_iff. intros [[[H1 H2] H3] H4].
  split; [by destruct spk|]. split; [|split; [by apply is_trimmed_true|]].
  - apply Forall_forall. intros c Hc. rewrite forallb_forall in H2.
    by apply H2, list_elem_of_In.
  - apply Forall_forall. intros c Hc. rewrite forallb_forall in H4.
    apply list_elem_of_In, H4 in Hc. by apply negb_true_iff.
Qed.

Lemma trigger_free_check (lower : pystr -> pystr) (txt : pystr) :
  first_rule (_norm lower txt) MANIPULATION_RULES = None -> trigger_free lower txt.
Proof. intros H c ts t. by apply first_rule_None. Qed.

(** ** The further properties at sample inputs *)

Lemma preprocess_chat_transcript_witness :
  preprocess_chat (transcript [(py "A", py "you owe me"); (py "B", py "okay fine")])
  = [Message (py "A") (py "you owe me"); Message (py "B") (py "okay fine")].
Proof.
  apply (preprocess_chat_transcript [(py "A", py "you owe me"); (py "B", py "okay fine")]).
  constructor; [apply is_well_formed_true; reflexivity|].
  constructor; [apply is_well_formed_true; reflexivity|].
  constructor.
Defined.

Lemma analyze_message_sound_witness :
  exists trig,
    occurs trig (_norm ascii_lower (py "You OWE  me!")) /\
    (analyze_message ascii_lower (py "You OWE  me!") sample_rng).1.2
    = rule_explanation trig (py "guilt-tripping").
Proof.
  destruct (analyze_message_sound ascii_lower (py "You OWE  me!") sample_rng)
    as (_ & H & _).
  destruct H as (i & ts & k & trig & _ & _ & Hocc & He & _).
  { vm_compute. intros E. discriminate E. }
  exists trig. split; [exact Hocc | exact He].
Defined.

Lemma analyze_message_padding_witness :
  analyze_message ascii_lower ([SP; 9] ++ py "or else" ++ [LF]) sample_rng
  = analyze_message ascii_lower (py "or else") sample_rng.
Proof.
  apply (analyze_message_padding ascii_lower [SP; 9] (py "or else") [LF] sample_rng);
    repeat constructor.
Defined.

Lemma same_speaker_never_pressured_witness :
  label (sample chat_hello 1) <> PRESSURED.
Proof.
  assert (H : Forall (fun msg => get_speaker msg = UNKNOWN) (preprocess_chat chat_hello)).
  { assert (preprocess_chat chat_hello
            = [Message UNKNOWN (py "hello there"); Message UNKNOWN (py "how are you")])
      as -> by (vm_compute; reflexivity).
    by repeat constructor. }
  assert (Hin : messages (sample_run chat_hello) !! 1%nat = Some (sample chat_hello 1))
    by (vm_compute; reflexivity).
  exact (proj1 (Forall_lookup_1 _ _ _ _
           (same_speaker_never_pressured ascii_lower UNKNOWN (preprocess_chat chat_hello)
              sample_rng H) Hin)).
Defined.

Lemma trigger_free_chat_neutral_witness :
  influence_score (sample_run chat_agree) = 0.00%Q.
Proof.
  apply (trigger_free_chat_neutral ascii_lower (preprocess_chat chat_agree) sample_rng).
  assert (preprocess_chat chat_agree
          = [Message (py "A") (py "okay sure"); Message (py "B") (py "yes, fine")])
    as -> by (vm_compute; reflexivity).
  constructor; [apply trigger_free_check; vm_compute; reflexivity|].
  constructor; [apply trigger_free_check; vm_compute; reflexivity|].
  constructor.
Defined.

Lemma influence_score_extremes_witness :
  influence_score (sample_run chat_owe) = 1.00%Q.
Proof.
  apply (influence_score_extremes ascii_lower (preprocess_chat chat_owe) sample_rng).
  - intros E. apply (f_equal length) in E. vm_compute in E. discriminate E.
  - assert (Hl : map label (messages (sample_run chat_owe))
                 = [py "guilt-tripping"; PRESSURED]) by (vm_compute; reflexivity).
    apply Forall_forall. intros a Ha Hn.
    apply (list_elem_of_fmap_2 label) in Ha. unfold sample_run in Hl.
    change (@fmap list _ _ _ label) with (@map analysis pystr label) in Ha.
    rewrite Hl, Hn in Ha. apply list_elem_of_In in Ha. vm_compute in Ha.
    destruct Ha as [E|[E|[]]]; discriminate E.
Defined.

Lemma missing_text_neutral_witness :
  let msgs : list message := [∅] in
  let a := default no_analysis
             (messages (fst (analyze_chat ascii_lower msgs sample_rng)) !! 0%nat) in
  label a = NEUTRAL /\ speaker a = UNKNOWN.
Proof.
  intros msgs a.
  assert (Ha : messages (fst (analyze_chat ascii_lower msgs sample_rng)) !! 0%nat = Some a)
    by (vm_compute; reflexivity).
  assert (Hmsg : msgs !! 0%nat = Some (∅ : message)) by reflexivity.
  assert (Ht : (∅ : message) !! "text"%string = None) by reflexivity.
  assert (Hs : (∅ : message) !! "speaker"%string = None) by reflexivity.
  destruct (missing_text_neutral ascii_lower msgs sample_rng 0 ∅ a eq_refl Hmsg Ht Ha)
    as (_ & Hl & _ & Hspk).
  split; [exact Hl | exact (Hspk Hs)].
Defined.

Lemma analyze_rejects_blank_witness :
  analyze ascii_lower {| models.chat := py "   " |} sample_rng
  = (inl {| status_code := 400; detail := py "Empty chat text provided." |}, sample_rng).
Proof.
  apply (analyze_rejects_blank ascii_lower {| models.chat := py "   " |} sample_rng).
  repeat constructor.
Defined.

Lemma analyze_response_witness :
  models.messages (sample_response chat_owe) <> [].
Proof.
  assert (H : fst (analyze ascii_lower {| models.chat := chat_owe |} sample_rng)
              = inr (sample_response chat_owe)) by (vm_compute; reflexivity).
  exact (proj1 (analyze_response ascii_lower {| models.chat := chat_owe |} sample_rng
                  (sample_response chat_owe) H)).
Defined.
